(** * pruner: selection, closure and emission of top-level declarations

    A shallow embedding of [main.c] of pruner, the tool that trims a C
    translation unit down to the functions the user asked to keep, the
    functions these call, and every other top-level declaration that is not
    blacklisted.

    The front end (libclang), the symbol sets of [set.h] and the call graph
    of [cfg.h] are collaborators of [main.c]; they are modelled here by what
    [main.c] needs of them.  The functions of [main.c] itself ([emit],
    [is_blacklisted], [visitor], [parse_args], [merge_callees] with its
    nested visitor, and the pipeline of [main]) are transcribed statement
    by statement. *)

From Stdlib Require Import ZArith String Ascii List Lia.
From stdpp Require Import base gmap strings list list_numbers.

Local Open Scope Z_scope.

(** ** Results of running a piece of C

    [OutOfFuel]: the budget of the model for a recursion or a loop was
    exhausted.  [Undefined]: the C program read an array out of bounds or
    passed on a null string.  [Ret a]: normal return. *)
Inductive exec (A : Type) : Type :=
| OutOfFuel : exec A
| Undefined : exec A
| Ret (a : A) : exec A.
Arguments OutOfFuel {A}.
Arguments Undefined {A}.
Arguments Ret {A} a.

#[export] Instance exec_ret : MRet exec := fun A a => Ret a.
#[export] Instance exec_bind : MBind exec := fun A B f m =>
  match m with
  | OutOfFuel => OutOfFuel
  | Undefined => Undefined
  | Ret a => f a
  end.

(** ** Machine integers: [unsigned int] is 32 bits wide *)
Definition UINT_MODULUS : Z := 2 ^ 32.
Definition wrap32 (z : Z) : Z := z mod UINT_MODULUS.

(** ** Strings and streams *)

(** [strcmp] of the C library: zero exactly on equal strings. *)
Definition strcmp (a b : string) : Z :=
  match String.compare a b with
  | Eq => 0
  | Lt => -1
  | Gt => 1
  end.

Definition newline : string := String (ascii_of_nat 10) EmptyString.

(** A [FILE*] opened for writing is the text written to it so far. *)
Definition FILE : Type := string.

(** [fprintf(stream, "%s\n", token)] and [fprintf(stream, "; ")]. *)
Definition fprintf_line (stream : FILE) (token : string) : FILE :=
  stream +:+ token +:+ newline.
Definition fprintf_semi (stream : FILE) : FILE :=
  stream +:+ "; ".

(** ** The front end, as [main.c] sees it *)

(** The cursor kinds [main.c] distinguishes, and a catch-all for the rest of
    libclang's enumeration. *)
Inductive CXCursorKind : Type :=
| CXCursor_StructDecl
| CXCursor_UnionDecl
| CXCursor_EnumDecl
| CXCursor_FunctionDecl
| CXCursor_VarDecl
| CXCursor_TypedefDecl
| CXCursor_OtherKind (code : nat).

#[export] Instance CXCursorKind_eq_dec : EqDecision CXCursorKind.
Proof. solve_decision. Defined.

Inductive CXChildVisitResult : Type :=
| CXChildVisit_Break
| CXChildVisit_Continue
| CXChildVisit_Recurse.

(** A top-level cursor: what [clang_getCursorKind], [clang_getCursorSpelling],
    [clang_isCursorDefinition] answer for it, and the spellings of the tokens
    that [clang_tokenize] yields for [clang_getCursorExtent] of it. *)
Record CXCursor : Type := {
  cursor_kind : CXCursorKind;
  cursor_spelling : string;
  cursor_is_definition : bool;
  cursor_extent : list string
}.

Definition clang_getCursorKind (cursor : CXCursor) : CXCursorKind :=
  cursor_kind cursor.
Definition clang_getCursorSpelling (cursor : CXCursor) : string :=
  cursor_spelling cursor.
Definition clang_isCursorDefinition (cursor : CXCursor) : bool :=
  cursor_is_definition cursor.

(** [clang_tokenize(tu, range, &tokens, &tokens_sz)]. *)
Definition clang_tokenize (cursor : CXCursor) : list string * Z :=
  (cursor_extent cursor, Z.of_nat (length (cursor_extent cursor))).

(** [clang_getTokenSpelling(tu, tokens[i])]: reading past the array is
    undefined behaviour. *)
Definition clang_getTokenSpelling (tokens : list string) (i : Z) : exec string :=
  if i <? 0 then Undefined
  else match tokens !! Z.to_nat i with
       | Some token => Ret token
       | None => Undefined
       end.

(** The token count of an extent fits an [unsigned int]. *)
Definition tokens_fit (cursor : CXCursor) : Prop :=
  Z.of_nat (length (cursor_extent cursor)) < UINT_MODULUS.

(** ** [emit] *)

(** The body of the loop [for (unsigned int i = 0; i < tokens_sz; i++)],
    run over the indices [0 .. tokens_sz - 1]. *)
Fixpoint dump_tokens (kind : CXCursorKind) (tokens : list string)
    (tokens_sz : Z) (indices : list Z) (stream : FILE) : exec FILE :=
  match indices with
  | [] => Ret stream
  | i :: rest =>
      token ← clang_getTokenSpelling tokens i;
      let stream' :=
        if (i =? wrap32 (tokens_sz - 1))
           && bool_decide (kind = CXCursor_TypedefDecl)
           && (strcmp token "__attribute__" =? 0)
        then fprintf_semi stream
        else fprintf_line stream token in
      dump_tokens kind tokens tokens_sz rest stream'
  end.

(** The [switch (kind)]: [None] is the early [return] of the struct, union
    and enum case, [Some n] the value of [tokens_sz] on leaving the switch. *)
Definition quirks (cursor : CXCursor) (kind : CXCursorKind) (last : string)
    (tokens_sz : Z) : option Z :=
  match kind with
  | CXCursor_FunctionDecl =>
      if clang_isCursorDefinition cursor && negb (strcmp last "}" =? 0)
      then Some (wrap32 (tokens_sz - 1))
      else Some tokens_sz
  | CXCursor_StructDecl
  | CXCursor_UnionDecl
  | CXCursor_EnumDecl =>
      if negb (strcmp last ";" =? 0) && negb (strcmp last "}" =? 0)
      then None
      else Some tokens_sz
  | _ => Some tokens_sz
  end.

Definition emit (stream : FILE) (cursor : CXCursor) : exec FILE :=
  let '(tokens, tokens_sz) := clang_tokenize cursor in
  if tokens_sz =? 0 then Ret stream
  else
    last ← clang_getTokenSpelling tokens (wrap32 (tokens_sz - 1));
    let kind := clang_getCursorKind cursor in
    match quirks cursor kind last tokens_sz with
    | None => Ret stream
    | Some tokens_sz' =>
        dump_tokens kind tokens tokens_sz' (seqZ 0 tokens_sz') stream
    end.

(** What the loop of [emit] prints for the range it is given, in the words
    of the design: every token on a line of its own, except that the final
    token of a typedef is replaced by a semicolon and a space when it spells
    the attribute keyword. *)
Fixpoint render (kind : CXCursorKind) (tokens : list string) : string :=
  match tokens with
  | [] => ""
  | [final] =>
      if decide (kind = CXCursor_TypedefDecl ∧ final = "__attribute__")
      then "; "
      else final +:+ newline
  | token :: rest => (token +:+ newline) +:+ render kind rest
  end.

(** ** Symbol sets ([set.h]) *)

(** Modelled from the spec: [set.h] and its implementation are not part of
    [main.c].  A symbol set is a collection of unique symbol names with
    idempotent insertion, a membership test, union into the receiver, and an
    iteration that produces each member exactly once. *)
Abbreviation set_t := (gset string).

(** Modelled from the spec: [set()] of [set.h], the empty symbol set. *)
Definition set : set_t := ∅.

(** Modelled from the spec: [set_insert] of [set.h]; inserting a member
    again changes nothing. *)
Definition set_insert (s : set_t) (name : string) : set_t := {[name]} ∪ s.

(** Modelled from the spec: [set_contains] of [set.h]. *)
Definition set_contains (s : set_t) (name : string) : bool :=
  bool_decide (name ∈ s).

(** Modelled from the spec: [set_union] of [set.h] adds every member of
    [other] to the receiver. *)
Definition set_union (self other : set_t) : set_t := self ∪ other.

(** Modelled from the spec: [set_iter] and [set_iter_next] of [set.h]
    enumerate every member once, in an order the spec leaves open. *)
Definition set_iter (s : set_t) : list string := elements s.

(** ** The declaration selector *)

(** [state_t]; the translation unit handle is not needed because a modelled
    cursor carries its own tokens. *)
Record state_t : Type := {
  keep : set_t;
  blacklist : set_t;
  out : FILE
}.

Definition is_blacklisted (blacklist : set_t) (cursor : CXCursor) : bool :=
  let name := clang_getCursorSpelling cursor in
  set_contains blacklist name.

Definition visitor (cursor : CXCursor) (state : state_t)
    : exec (CXChildVisitResult * state_t) :=
  let retain :=
    if bool_decide (clang_getCursorKind cursor = CXCursor_FunctionDecl)
    then set_contains (keep state) (clang_getCursorSpelling cursor)
    else true in
  if negb retain then Ret (CXChildVisit_Continue, state)
  else if is_blacklisted (blacklist state) cursor
  then Ret (CXChildVisit_Continue, state)
  else
    out' ← emit (out state) cursor;
    Ret (CXChildVisit_Continue,
         {| keep := keep state; blacklist := blacklist state; out := out' |}).

(** [clang_visitChildren] over the top-level cursors of a translation unit.
    A visitor that answers [CXChildVisit_Recurse] would be taken into the
    children of the cursor, which are not modelled: the visitor of [main.c]
    never answers so. *)
Fixpoint clang_visitChildren (children : list CXCursor)
    (visit : CXCursor → state_t → exec (CXChildVisitResult * state_t))
    (state : state_t) : exec state_t :=
  match children with
  | [] => Ret state
  | cursor :: rest =>
      r ← visit cursor state;
      match fst r with
      | CXChildVisit_Break => Ret (snd r)
      | _ => clang_visitChildren rest visit (snd r)
      end
  end.

(** The selector in the words of the design: three checks in order. *)
Inductive decision : Type := Skip | Emit.

Definition select (keep_set blacklist_set : set_t) (kind : CXCursorKind)
    (name : string) : decision :=
  if decide (kind = CXCursor_FunctionDecl ∧ name ∉ keep_set) then Skip
  else if decide (name ∈ blacklist_set) then Skip
  else Emit.

(** What the emitter prints for a range of tokens, in the words of the
    design: one spelling per line. *)
Definition line (token : string) : string := token +:+ newline.

Fixpoint lines (tokens : list string) : string :=
  match tokens with
  | [] => ""
  | token :: rest => line token +:+ lines rest
  end.

(** The range of tokens the design keeps for a declaration: a function
    definition loses a trailing token that is not the closing brace, a
    struct, union or enum fragment that ends in neither [;] nor [}] loses
    everything, any other extent is kept whole. *)
Definition emitted_range (cursor : CXCursor) : list string :=
  match last (cursor_extent cursor) with
  | None => []
  | Some final =>
      match cursor_kind cursor with
      | CXCursor_FunctionDecl =>
          if decide (cursor_is_definition cursor = true ∧ final ≠ "}")
          then removelast (cursor_extent cursor)
          else cursor_extent cursor
      | CXCursor_StructDecl | CXCursor_UnionDecl | CXCursor_EnumDecl =>
          if decide (final ≠ ";" ∧ final ≠ "}") then []
          else cursor_extent cursor
      | _ => cursor_extent cursor
      end
  end.

(** ** The call graph ([cfg.h]) *)

(** Modelled from the spec: the call graph of [cfg.h], which is not part of
    [main.c].  For a caller name the adapter gives the sequence of its
    callees, each a callee name or the UNDEFINED marker ([None] here, the
    [NULL] callee of the C interface); [None] for the whole sequence is the
    hard error of an adapter that cannot enumerate the callees. *)
Definition cfg_t : Type := string → option (list (option string)).

(** Modelled from the spec: the loop of [cfg_visit_callees] (of [cfg.h],
    which is not part of [main.c]) over the callee sequence of one caller.
    Every entry is handed to the visitor together with the caller's name.
    When the visitor answers [CXChildVisit_Recurse] for a callee name, the
    traversal goes on into that callee's own callees ([descend]) before it
    takes the next entry, unless it has met the callee before: [seen]
    holds the symbols whose callees this traversal has enumerated or is
    enumerating, so that a symbol met again is handed to the visitor (whose
    insertion is then a no-op) but is not traversed again.  A non-zero
    return code of a nested traversal ends the traversal with that code. *)
Fixpoint visit_entries {St : Type}
    (descend : string → set_t → St → exec (Z * (set_t * St)))
    (caller : string)
    (visit : option string → string → St → CXChildVisitResult * St)
    (entries : list (option string)) (seen : set_t) (data : St)
    : exec (Z * (set_t * St)) :=
  match entries with
  | [] => Ret (0, (seen, data))
  | entry :: rest =>
      let (answer, data1) := visit entry caller data in
      match answer, entry with
      | CXChildVisit_Break, _ => Ret (0, (seen, data1))
      | CXChildVisit_Recurse, Some callee =>
          if decide (callee ∈ seen)
          then visit_entries descend caller visit rest seen data1
          else
            r ← descend callee ({[callee]} ∪ seen) data1;
            if fst r =? 0
            then visit_entries descend caller visit rest
                   (fst (snd r)) (snd (snd r))
            else Ret r
      | _, _ => visit_entries descend caller visit rest seen data1
      end
  end.

(** Modelled from the spec: the traversal of [cfg_visit_callees] at one
    symbol, [seen] being the symbols met so far.  It returns zero, or
    non-zero as soon as the adapter reports a hard error.  [fuel] bounds
    the depth of the recursion. *)
Fixpoint visit_symbol {St : Type} (fuel : nat) (graph : cfg_t)
    (visit : option string → string → St → CXChildVisitResult * St)
    (caller : string) (seen : set_t) (data : St)
    : exec (Z * (set_t * St)) :=
  match fuel with
  | O => OutOfFuel
  | S fuel' =>
      match graph caller with
      | None => Ret (-1, (seen, data))
      | Some entries =>
          visit_entries (visit_symbol fuel' graph visit) caller visit
            entries seen data
      end
  end.

(** Modelled from the spec: [cfg_visit_callees] of [cfg.h], which is not
    part of [main.c].  The traversal visits the callees of [caller] and,
    on the visitor's request, the callees of these in turn; it is safe on
    cycles because it enumerates the callees of each symbol at most once,
    so that its depth is bounded by the number of distinct symbols. *)
Definition cfg_visit_callees {St : Type} (fuel : nat) (graph : cfg_t)
    (caller : string)
    (visit : option string → string → St → CXChildVisitResult * St)
    (data : St) : exec (Z * St) :=
  r ← visit_symbol fuel graph visit caller {[caller]} data;
  Ret (fst r, snd (snd r)).

(** ** [merge_callees] *)

(** What the nested visitor of [merge_callees] reads and writes: the
    accumulator set [callees] and the standard error stream. *)
Record closure_state : Type := {
  callees : set_t;
  stderr : FILE
}.

(** The visitor nested in [merge_callees]. *)
Definition callee_visitor (callee : option string) (caller : string)
    (st : closure_state) : CXChildVisitResult * closure_state :=
  match callee with
  | None =>
      (CXChildVisit_Continue,
       {| callees := callees st;
          stderr := stderr st +:+ "Warning: no definition for called function "
                      +:+ caller +:+ newline |})
  | Some callee =>
      (CXChildVisit_Recurse,
       {| callees := set_insert (callees st) callee; stderr := stderr st |})
  end.

(** The [while (true)] loop of [merge_callees] over the iterator of [keeps]. *)
Fixpoint merge_loop (fuel : nat) (graph : cfg_t) (callers : list string)
    (st : closure_state) : exec (Z * closure_state) :=
  match callers with
  | [] => Ret (0, st)
  | caller :: rest =>
      r ← cfg_visit_callees fuel graph caller callee_visitor st;
      if negb (fst r =? 0) then Ret (-1, snd r)
      else merge_loop fuel graph rest (snd r)
  end.

(** [merge_callees]: the return code, the set [keeps] as the call leaves it,
    and what was written to standard error.  (The failure of allocating the
    accumulator is not modelled.) *)
Definition merge_callees (fuel : nat) (keeps : set_t) (graph : cfg_t)
    : exec (Z * set_t * FILE) :=
  let callees0 := set in
  r ← merge_loop fuel graph (set_iter keeps)
        {| callees := callees0; stderr := "" |};
  if negb (fst r =? 0) then Ret (-1, keeps, stderr (snd r))
  else Ret (0, set_union keeps (callees (snd r)), stderr (snd r)).

(** The call relation of a graph, the UNDEFINED marker left out. *)
Definition calls (graph : cfg_t) (caller callee : string) : Prop :=
  ∃ entries, graph caller = Some entries ∧ Some callee ∈ entries.

(** A set closed under calls. *)
Definition closed_under_calls (graph : cfg_t) (S : set_t) : Prop :=
  ∀ caller callee, caller ∈ S → calls graph caller callee → callee ∈ S.

(** [S] is the smallest superset of [K] that is closed under calls. *)
Definition smallest_closed_superset (graph : cfg_t) (K S : set_t) : Prop :=
  K ⊆ S ∧ closed_under_calls graph S ∧
  ∀ S' : set_t, K ⊆ S' → closed_under_calls graph S' → S ⊆ S'.

(** The adapter enumerates the callees of every member of [U]. *)
Definition no_lookup_error (graph : cfg_t) (U : set_t) : Prop :=
  ∀ x, x ∈ U → graph x ≠ None.

(** What a successful traversal from [caller] adds to the accumulator:
    exactly the symbols that [caller] reaches by one or more calls. *)
Definition adds_reachable (graph : cfg_t)
    (descend : string → closure_state → exec (Z * closure_state)) : Prop :=
  ∀ caller st st',
    descend caller st = Ret (0, st') →
    ∀ x, x ∈ callees st' ↔ x ∈ callees st ∨ tc (calls graph) caller x.

(** The symbols met between [before] and [after] have had their callees
    enumerated: the adapter answered for them, and each of their callees
    has been met and is in the accumulator [acc]. *)
Definition enumerated (graph : cfg_t) (before after acc : set_t) : Prop :=
  ∀ y, y ∈ after → y ∉ before →
    graph y ≠ None ∧ ∀ z, calls graph y z → z ∈ after ∧ z ∈ acc.

(** What a successful traversal at a symbol leaves behind. *)
Definition traversal_ok (graph : cfg_t)
    (descend : string → set_t → closure_state
               → exec (Z * (set_t * closure_state))) : Prop :=
  ∀ caller seen st seen' st',
    descend caller seen st = Ret (0, (seen', st')) →
    seen ⊆ seen' ∧ callees st ⊆ callees st'
    ∧ graph caller ≠ None
    ∧ (∀ z, calls graph caller z → z ∈ seen' ∧ z ∈ callees st')
    ∧ enumerated graph seen seen' (callees st')
    ∧ (∀ x, x ∈ callees st' → x ∈ callees st ∨ tc (calls graph) caller x)
    ∧ (∀ x, x ∈ seen' → x ∈ seen ∨ tc (calls graph) caller x).

(** A traversal that starts inside [U] with the symbols [seen] met, fewer
    than [budget] symbols of [U] being left to meet, returns and stays
    inside [U]; it succeeds when the adapter answers for all of [U]. *)
Definition returns_within (graph : cfg_t) (U : set_t) (budget : nat)
    (descend : string → set_t → closure_state
               → exec (Z * (set_t * closure_state))) : Prop :=
  ∀ callee seen st,
    callee ∈ U → seen ⊆ U → (size (U ∖ seen) < budget)%nat →
    ∃ rc seen' st',
      descend callee seen st = Ret (rc, (seen', st'))
      ∧ seen ⊆ seen' ∧ seen' ⊆ U
      ∧ (no_lookup_error graph U → rc = 0).

(** A call graph given by a finite table: the callee sequence of every
    caller the table lists ([None] where the adapter fails), and no callee
    for any other symbol. *)
Definition cfg_of_table (table : gmap string (option (list (option string))))
    : cfg_t :=
  λ caller, default (Some []) (table !! caller).

(** The callee names of a sequence of entries. *)
Definition callee_names (entries : option (list (option string))) : set_t :=
  match entries with
  | Some entries => list_to_set (omap id entries)
  | None => ∅
  end.

(** The distinct symbols of a table: its callers and their callees. *)
Definition table_symbols (table : gmap string (option (list (option string))))
    : set_t :=
  dom table ∪ ⋃ (callee_names ∘ snd <$> map_to_list table).

(** ** Command line ([parse_args]) *)

(** [struct option] of [getopt.h], without the [flag] pointer that
    [main.c] always leaves [NULL]. *)
Inductive has_arg_t : Type := no_argument | required_argument.

Record struct_option : Type := {
  opt_name : string;
  opt_has_arg : has_arg_t;
  opt_val : ascii
}.

(** What one call of [getopt_long] tells its caller: [-1] together with the
    operands left at [argv[optind..]], or an option character with [optarg],
    the arguments not scanned yet and the operands skipped so far. *)
Inductive getopt_return : Type :=
| GetoptEnd (operands : list string)
| GetoptOpt (c : ascii) (optarg : option string)
            (rest : list string) (skipped : list string).

(** The part of an argument before the first [=], and the part after it. *)
Fixpoint split_at_eq (s : string) : string * option string :=
  match s with
  | EmptyString => (EmptyString, None)
  | String c r =>
      if Ascii.eqb c "="%char then (EmptyString, Some r)
      else let (name, value) := split_at_eq r in (String c name, value)
  end.

(** A long option is found by its exact name, or by a prefix of its name
    that no other option shares. *)
Definition find_long (longopts : list struct_option) (name : string)
    : option struct_option :=
  match filter (λ o, opt_name o = name) longopts with
  | o :: _ => Some o
  | [] =>
      match filter (λ o, String.prefix name (opt_name o) = true) longopts with
      | [o] => Some o
      | _ => None
      end
  end.

(** A short option character is looked up in the option string; a colon
    after it says that it takes an argument. *)
Fixpoint optstring_find (c : ascii) (optstring : string) : option has_arg_t :=
  match optstring with
  | EmptyString => None
  | String d rest =>
      if Ascii.eqb c d
      then Some match rest with
                | String next _ =>
                    if Ascii.eqb next ":" then required_argument
                    else no_argument
                | EmptyString => no_argument
                end
      else optstring_find c rest
  end.

Definition question_mark : ascii := "?"%char.

(** A long option [--name], [--name=value] or [--name value]. *)
Definition getopt_long_option (longopts : list struct_option) (long : string)
    (rest skipped : list string) : getopt_return :=
  let (name, value) := split_at_eq long in
  match find_long longopts name with
  | None => GetoptOpt question_mark None rest skipped
  | Some o =>
      match opt_has_arg o, value with
      | no_argument, None => GetoptOpt (opt_val o) None rest skipped
      | no_argument, Some _ => GetoptOpt question_mark None rest skipped
      | required_argument, Some v => GetoptOpt (opt_val o) (Some v) rest skipped
      | required_argument, None =>
          match rest with
          | v :: rest' => GetoptOpt (opt_val o) (Some v) rest' skipped
          | [] => GetoptOpt question_mark None rest skipped
          end
      end
  end.

(** A short option [-c], [-cvalue] or [-c value]; after an option without
    argument the scan resumes at the rest of the cluster. *)
Definition getopt_short_option (optstring : string) (c : ascii)
    (cluster : string) (rest skipped : list string) : getopt_return :=
  let resume :=
    match cluster with
    | EmptyString => rest
    | _ => String "-" cluster :: rest
    end in
  match (if Ascii.eqb c ":" then None else optstring_find c optstring) with
  | None => GetoptOpt question_mark None resume skipped
  | Some no_argument => GetoptOpt c None resume skipped
  | Some required_argument =>
      match cluster, rest with
      | String _ _, _ => GetoptOpt c (Some cluster) rest skipped
      | EmptyString, v :: rest' => GetoptOpt c (Some v) rest' skipped
      | EmptyString, [] => GetoptOpt question_mark None rest skipped
      end
  end.

(** [getopt_long] of the GNU C library, for an option string that does not
    start with [+], [-] or [:] and an environment without
    [POSIXLY_CORRECT]: arguments that are not options are skipped and end
    up behind the options (with [POSIXLY_CORRECT] the scan would end at the
    first of them), [--] ends the options, an unknown option, a missing
    argument or an argument given to an option that takes none yields
    [?]. *)
Fixpoint getopt_long (optstring : string) (longopts : list struct_option)
    (args skipped : list string) : getopt_return :=
  match args with
  | [] => GetoptEnd skipped
  | arg :: rest =>
      match arg with
      | String dash (String c tail) =>
          if negb (Ascii.eqb dash "-")
          then getopt_long optstring longopts rest (skipped ++ [arg])
          else if Ascii.eqb c "-" then
            match tail with
            | EmptyString => GetoptEnd (skipped ++ rest)
            | _ => getopt_long_option longopts tail rest skipped
            end
          else getopt_short_option optstring c tail rest skipped
      | _ => getopt_long optstring longopts rest (skipped ++ [arg])
      end
  end.

Record options_t : Type := {
  o_input : option string;
  o_output : string;
  o_keep : set_t;
  o_blacklist : set_t
}.

Definition EXIT_FAILURE : Z := 1.

(** The table [opts] and the option string handed to [getopt_long]. *)
Definition opts : list struct_option :=
  [ {| opt_name := "blacklist"; opt_has_arg := required_argument; opt_val := "b" |};
    {| opt_name := "help"; opt_has_arg := no_argument; opt_val := "?" |};
    {| opt_name := "keep"; opt_has_arg := required_argument; opt_val := "k" |};
    {| opt_name := "output"; opt_has_arg := required_argument; opt_val := "o" |} ].

Definition optstring : string := "k:o:?".

(** The [while (true)] loop of [parse_args]: [None] is a jump to [fail4],
    which ends the process; otherwise the options and the operands left at
    [argv[optind..]].  Every call of [getopt_long] that lets the loop go on
    consumes an argument, so a budget of one call per argument and one
    more is never used up. *)
Fixpoint parse_loop (fuel : nat) (args skipped : list string) (o : options_t)
    : exec (option (options_t * list string)) :=
  match fuel with
  | O => OutOfFuel
  | S fuel' =>
      match getopt_long optstring opts args skipped with
      | GetoptEnd operands => Ret (Some (o, operands))
      | GetoptOpt c optarg rest skipped' =>
          if Ascii.eqb c "b" then
            match optarg with
            | None => Undefined
            | Some v =>
                parse_loop fuel' rest skipped'
                  {| o_input := o_input o; o_output := o_output o;
                     o_keep := o_keep o;
                     o_blacklist := set_insert (o_blacklist o) v |}
            end
          else if Ascii.eqb c "k" then
            match optarg with
            | None => Undefined
            | Some v =>
                parse_loop fuel' rest skipped'
                  {| o_input := o_input o; o_output := o_output o;
                     o_keep := set_insert (o_keep o) v;
                     o_blacklist := o_blacklist o |}
            end
          else if Ascii.eqb c "o" then
            match optarg with
            | None => Undefined
            | Some v =>
                parse_loop fuel' rest skipped'
                  {| o_input := o_input o; o_output := v;
                     o_keep := o_keep o; o_blacklist := o_blacklist o |}
            end
          else Ret None
      end
  end.

(** [parse_args]: [inl status] when the process exits with [status],
    [inr o] when the options are returned.  The usage text printed on the
    way to [fail4] is not modelled. *)
Definition parse_args (argv : list string) : exec (Z + options_t) :=
  let defaults :=
    {| o_input := None; o_output := "/dev/stdout";
       o_keep := set; o_blacklist := set |} in
  r ← parse_loop (S (length argv)) (tail argv) [] defaults;
  match r with
  | None => Ret (inl EXIT_FAILURE)
  | Some (o, operands) =>
      match operands with
      | [] => Ret (inr o)
      | [file] =>
          Ret (inr {| o_input := Some file; o_output := o_output o;
                      o_keep := o_keep o; o_blacklist := o_blacklist o |})
      | _ => Ret (inl EXIT_FAILURE)
      end
  end.

(** ** The pipeline of [main] once the call graph is built *)

Record run_t : Type := {
  exit_status : Z;
  closed_keep : set_t;
  output_file : FILE;
  error_stream : FILE
}.

(** [main] from the call of [merge_callees] on: close the keep-set, then
    walk the top-level cursors of the translation unit with [visitor]. *)
Definition main_from_cfg (fuel : nat) (o : options_t) (graph : cfg_t)
    (tu : list CXCursor) : exec run_t :=
  r ← merge_callees fuel (o_keep o) graph;
  let '(rc, keeps, err) := r in
  if negb (rc =? 0) then
    Ret {| exit_status := EXIT_FAILURE; closed_keep := keeps;
           output_file := "";
           error_stream := err +:+ "Failed to traverse CFG" +:+ newline |}
  else
    st ← clang_visitChildren tu visitor
           {| keep := keeps; blacklist := o_blacklist o; out := "" |};
    Ret {| exit_status := 0; closed_keep := keep st;
           output_file := out st; error_stream := err |}.

(** Every token of the extent is printed literally, one per line. *)
Definition prints_every_token (stream : FILE) (cursor : CXCursor) : Prop :=
  emit stream cursor = Ret (stream +:+ lines (cursor_extent cursor)).

(** The keep-set with which [main] walks the declarations. *)
Definition closure_of_run (fuel : nat) (o : options_t) (graph : cfg_t)
    (tu : list CXCursor) : exec set_t :=
  r ← main_from_cfg fuel o graph tu;
  Ret (closed_keep r).

(** ** Sample call graphs *)

(** [int f() { return g() + h(); }  int g() { return 1; }] with no
    definition of [h]. *)
Definition sample_graph : cfg_t := λ caller,
  if decide (caller = "f") then Some [Some "g"; None]
  else Some [].

(** [int f() { return f(); }] *)
Definition loop_graph : cfg_t := λ caller,
  if decide (caller = "f") then Some [Some "f"]
  else Some [].

(** [f] and [g] call each other, and [g] also calls [h]:
    [int f() { return g(); }  int g() { return f() + h(); }
     int h() { return 1; }] *)
Definition recursive_graph : cfg_t := λ caller,
  if decide (caller = "f") then Some [Some "g"]
  else if decide (caller = "g") then Some [Some "f"; Some "h"]
  else Some [].

(** The symbols of [recursive_graph]. *)
Definition recursive_symbols : set_t := {["f"; "g"; "h"]}.

(** [f] calls itself and [h], and the adapter cannot enumerate the callees
    of [h]. *)
Definition failing_recursive_graph : cfg_t := λ caller,
  if decide (caller = "f") then Some [Some "f"; Some "h"]
  else if decide (caller = "h") then None
  else Some [].

(** Options that keep [f], without and with [g] on the blacklist. *)
Definition sample_options : options_t :=
  {| o_input := Some "input.c"; o_output := "/dev/stdout";
     o_keep := {["f"]}; o_blacklist := ∅ |}.

Definition sample_options_blacklisting : options_t :=
  {| o_input := Some "input.c"; o_output := "/dev/stdout";
     o_keep := {["f"]}; o_blacklist := {["g"]} |}.

(** ** Sample declarations *)

(** [int f() {}] followed by a declaration that starts with [struct]. *)
Definition sample_function : CXCursor :=
  {| cursor_kind := CXCursor_FunctionDecl; cursor_spelling := "f";
     cursor_is_definition := true;
     cursor_extent := ["int"; "f"; "("; ")"; "{"; "}"; "struct"] |}.

(** The struct of [typedef struct { int x; } foo_t;], as the front end
    reports it: its extent runs one token too far. *)
Definition sample_struct_fragment : CXCursor :=
  {| cursor_kind := CXCursor_StructDecl; cursor_spelling := "";
     cursor_is_definition := true;
     cursor_extent := ["struct"; "{"; "int"; "x"; ";"; "}"; "foo_t"] |}.

(** [struct point { int x; };] *)
Definition sample_struct : CXCursor :=
  {| cursor_kind := CXCursor_StructDecl; cursor_spelling := "point";
     cursor_is_definition := true;
     cursor_extent := ["struct"; "point"; "{"; "int"; "x"; ";"; "}"; ";"] |}.

(** [typedef int word_t __attribute__((aligned(8)));], as the front end
    reports it. *)
Definition sample_typedef : CXCursor :=
  {| cursor_kind := CXCursor_TypedefDecl; cursor_spelling := "word_t";
     cursor_is_definition := true;
     cursor_extent := ["typedef"; "int"; "word_t"; "__attribute__"] |}.

(** [int counter;] *)
Definition sample_variable : CXCursor :=
  {| cursor_kind := CXCursor_VarDecl; cursor_spelling := "counter";
     cursor_is_definition := true;
     cursor_extent := ["int"; "counter"; ";"] |}.

(** A variable whose extent tokenizes to nothing. *)
Definition sample_empty : CXCursor :=
  {| cursor_kind := CXCursor_VarDecl; cursor_spelling := "ghost";
     cursor_is_definition := false;
     cursor_extent := [] |}.

(** ** The declaration walk as a whole *)

#[export] Instance decision_eq_dec : EqDecision decision.
Proof. solve_decision. Defined.

(** The declarations of a translation unit that pass the selector, in
    source order. *)
Definition selected (keep_set blacklist_set : set_t) (tu : list CXCursor)
    : list CXCursor :=
  filter (λ cursor, select keep_set blacklist_set (cursor_kind cursor)
                      (cursor_spelling cursor) = Emit) tu.

(** The text printed for one declaration. *)
Definition rendering (cursor : CXCursor) : string :=
  render (cursor_kind cursor) (emitted_range cursor).

Fixpoint concat_text (texts : list string) : string :=
  match texts with
  | [] => ""
  | text :: rest => text +:+ concat_text rest
  end.

(** No caller of the graph has the UNDEFINED marker among its callees. *)
Definition no_undefined (graph : cfg_t) : Prop :=
  ∀ caller entries, graph caller = Some entries → None ∉ entries.

(** ** Command lines built from options and operands *)

(** One option with its argument, or one operand; [long] chooses between
    the long and the short spelling of the option. *)
Inductive cli_item : Type :=
| KeepOpt (long : bool) (symbol : string)
| BlacklistOpt (symbol : string)
| OutputOpt (long : bool) (path : string)
| Operand (arg : string).

Definition encode_item (item : cli_item) : list string :=
  match item with
  | KeepOpt true symbol => ["--keep"; symbol]
  | KeepOpt false symbol => ["-k"; symbol]
  | BlacklistOpt symbol => ["--blacklist"; symbol]
  | OutputOpt true path => ["--output"; path]
  | OutputOpt false path => ["-o"; path]
  | Operand arg => [arg]
  end.

Definition encode_items (items : list cli_item) : list string :=
  flat_map encode_item items.

(** An argument that [getopt_long] does not take for an option: it does
    not start with a dash, or it is shorter than two characters. *)
Definition is_operand (arg : string) : bool :=
  match arg with
  | String dash (String _ _) => negb (Ascii.eqb dash "-")
  | _ => true
  end.

Definition well_formed_item (item : cli_item) : Prop :=
  match item with
  | Operand arg => is_operand arg = true
  | _ => True
  end.

(** What the [switch] of [parse_args] does with one item. *)
Definition apply_item (o : options_t) (item : cli_item) : options_t :=
  match item with
  | KeepOpt _ symbol =>
      {| o_input := o_input o; o_output := o_output o;
         o_keep := set_insert (o_keep o) symbol;
         o_blacklist := o_blacklist o |}
  | BlacklistOpt symbol =>
      {| o_input := o_input o; o_output := o_output o;
         o_keep := o_keep o;
         o_blacklist := set_insert (o_blacklist o) symbol |}
  | OutputOpt _ path =>
      {| o_input := o_input o; o_output := path;
         o_keep := o_keep o; o_blacklist := o_blacklist o |}
  | Operand _ => o
  end.

Definition operands_of (items : list cli_item) : list string :=
  flat_map (λ item, match item with Operand arg => [arg] | _ => [] end) items.

Definition keeps_of (items : list cli_item) : list string :=
  flat_map (λ item, match item with KeepOpt _ s => [s] | _ => [] end) items.

Definition blacklists_of (items : list cli_item) : list string :=
  flat_map (λ item, match item with BlacklistOpt s => [s] | _ => [] end) items.

Definition outputs_of (items : list cli_item) : list string :=
  flat_map (λ item, match item with OutputOpt _ p => [p] | _ => [] end) items.

Definition is_option (item : cli_item) : bool :=
  match item with
  | Operand _ => false
  | _ => true
  end.

(** The number of options among the items. *)
Definition options_count (items : list cli_item) : nat :=
  length (filter (λ item, is_option item = true) items).

(** The defaults that [parse_args] starts from. *)
Definition default_options : options_t :=
  {| o_input := None; o_output := "/dev/stdout";
     o_keep := set; o_blacklist := set |}.

(** What [parse_args] makes of the options and the operands it is left
    with: no operand leaves the input unset, one operand is the input,
    more end the process. *)
Definition finish_parse (o : options_t) (operands : list string)
    : Z + options_t :=
  match operands with
  | [] => inr o
  | [file] =>
      inr {| o_input := Some file; o_output := o_output o;
             o_keep := o_keep o; o_blacklist := o_blacklist o |}
  | _ => inl EXIT_FAILURE
  end.

(** Options only, with the input file to follow: keep [f] and [g],
    blacklist [h], write to [out.c]. *)
Definition sample_options_first : list cli_item :=
  [KeepOpt false "f"; BlacklistOpt "h"; OutputOpt true "out.c";
   KeepOpt true "g"].

(** ** [main] *)

(** What [main] asks of the file system and of the front end: whether
    [fopen(path, "r")] and [fopen(path, "w")] succeed, the top-level
    cursors of the translation unit that [clang_parseTranslationUnit]
    builds for a path, and the call graph that [cfg] derives from it. *)
Record world : Type := {
  fopen_r : string → bool;
  clang_parseTranslationUnit : string → option (list CXCursor);
  fopen_w : string → bool;
  cfg : list CXCursor → option cfg_t
}.

(** What a run of the process leaves behind: its exit status and the
    output file, [None] when the run never opened it, otherwise its new
    contents.  (The diagnostics of [main] are not modelled.) *)
Record process_t : Type := {
  p_status : Z;
  p_output : option FILE
}.

Definition main (fuel : nat) (w : world) (argv : list string)
    : exec process_t :=
  parsed ← parse_args argv;
  match parsed with
  | inl status => Ret {| p_status := status; p_output := None |}
  | inr options =>
      match o_input options with
      | None => Ret {| p_status := EXIT_FAILURE; p_output := None |}
      | Some input =>
          if negb (fopen_r w input)
          then Ret {| p_status := EXIT_FAILURE; p_output := None |}
          else
            match clang_parseTranslationUnit w input with
            | None => Ret {| p_status := EXIT_FAILURE; p_output := None |}
            | Some tu =>
                if negb (fopen_w w (o_output options))
                then Ret {| p_status := EXIT_FAILURE; p_output := None |}
                else
                  match cfg w tu with
                  | None =>
                      Ret {| p_status := EXIT_FAILURE; p_output := Some "" |}
                  | Some graph =>
                      r ← main_from_cfg fuel options graph tu;
                      Ret {| p_status := exit_status r;
                             p_output := Some (output_file r) |}
                  end
            end
      end
  end.

(** The front end reports token counts that fit an [unsigned int]. *)
Definition world_fits (w : world) : Prop :=
  ∀ input tu, clang_parseTranslationUnit w input = Some tu →
              Forall tokens_fit tu.

(** ** Further samples *)

(** The prototype [int f();] *)
Definition sample_prototype : CXCursor :=
  {| cursor_kind := CXCursor_FunctionDecl; cursor_spelling := "f";
     cursor_is_definition := false;
     cursor_extent := ["int"; "f"; "("; ")"; ";"] |}.

(** [int f() {}] at the end of the file. *)
Definition sample_function_at_end : CXCursor :=
  {| cursor_kind := CXCursor_FunctionDecl; cursor_spelling := "f";
     cursor_is_definition := true;
     cursor_extent := ["int"; "f"; "("; ")"; "{"; "}"] |}.

(** [int g() {}] followed by a semicolon. *)
Definition sample_callee : CXCursor :=
  {| cursor_kind := CXCursor_FunctionDecl; cursor_spelling := "g";
     cursor_is_definition := true;
     cursor_extent := ["int"; "g"; "("; ")"; "{"; "}"; ";"] |}.

(** A translation unit with two functions and a variable. *)
Definition sample_unit : list CXCursor :=
  [sample_function; sample_variable; sample_callee].

(** A world with one readable and parsable file, [input.c]. *)
Definition sample_world : world :=
  {| fopen_r := λ path, bool_decide (path = "input.c");
     clang_parseTranslationUnit := λ path,
       if decide (path = "input.c") then Some sample_unit else None;
     fopen_w := λ _, true;
     cfg := λ _, Some sample_graph |}.

(** A world whose file [input.c] holds [sample_unit], with a call graph in
    which [f] and [g] call each other. *)
Definition recursive_world : world :=
  {| fopen_r := λ path, bool_decide (path = "input.c");
     clang_parseTranslationUnit := λ path,
       if decide (path = "input.c") then Some sample_unit else None;
     fopen_w := λ _, true;
     cfg := λ _, Some recursive_graph |}.

(** * Properties *)

(** ** Strings *)

Lemma append_assoc (a b c : string) : (a +:+ b) +:+ c = a +:+ b +:+ c.
Proof.
  induction a as [|ch a IH]; [reflexivity |].
  change (String ch ((a +:+ b) +:+ c) = String ch (a +:+ b +:+ c)).
  by f_equal.
Qed.

Lemma append_empty_r (a : string) : a +:+ "" = a.
Proof.
  induction a as [|ch a IH]; [reflexivity |].
  change (String ch (a +:+ "") = String ch a). by f_equal.
Qed.

Lemma strcmp_zero (a b : string) : (strcmp a b =? 0) = bool_decide (a = b).
Proof.
  unfold strcmp. destruct (String.compare a b) eqn:E.
  - apply String.compare_eq_iff in E. by rewrite bool_decide_eq_true_2.
  - rewrite bool_decide_eq_false_2; [done |].
    intros ->. pose proof (String.compare_antisym b b) as H.
    rewrite E in H. discriminate.
  - rewrite bool_decide_eq_false_2; [done |].
    intros ->. pose proof (String.compare_antisym b b) as H.
    rewrite E in H. discriminate.
Qed.

(** ** Machine integers *)

Lemma wrap32_small (z : Z) : 0 ≤ z < UINT_MODULUS → wrap32 z = z.
Proof. intros H. unfold wrap32. by apply Z.mod_small. Qed.

(** ** The printing loop *)

Lemma token_spelling_middle (pre suf : list string) (token : string) :
  clang_getTokenSpelling (pre ++ token :: suf) (Z.of_nat (length pre)) = Ret token.
Proof.
  unfold clang_getTokenSpelling.
  destruct (Z.ltb_spec (Z.of_nat (length pre)) 0) as [H|_]; [lia |].
  by rewrite Nat2Z.id, list_lookup_middle.
Qed.

(** Run over the indices of [suf] inside [pre ++ suf ++ extra], the loop
    prints [render kind suf]. *)
Lemma dump_tokens_render kind (suf pre extra : list string) (stream : FILE) :
  Z.of_nat (length pre + length suf) ≤ UINT_MODULUS →
  dump_tokens kind (pre ++ suf ++ extra)
    (Z.of_nat (length pre + length suf))
    (seqZ (Z.of_nat (length pre)) (Z.of_nat (length suf))) stream
  = Ret (stream +:+ render kind suf).
Proof.
  revert pre stream. induction suf as [|token suf IH]; intros pre stream Hfit.
  - simpl. by rewrite append_empty_r.
  - rewrite seqZ_cons by (simpl; lia).
    cbn [dump_tokens]. simpl app. rewrite token_spelling_middle.
    cbn [mbind exec_bind].
    replace (Z.succ (Z.of_nat (length pre)))
      with (Z.of_nat (length (pre ++ [token]))) by (rewrite length_app; simpl; lia).
    replace (Z.pred (Z.of_nat (length (token :: suf))))
      with (Z.of_nat (length suf)) by (simpl; lia).
    replace (length pre + length (token :: suf))%nat
      with (length (pre ++ [token]) + length suf)%nat
      by (rewrite length_app; simpl; lia).
    replace (pre ++ token :: suf ++ extra)
      with ((pre ++ [token]) ++ suf ++ extra) by by rewrite <- app_assoc.
    rewrite IH by (rewrite length_app in *; simpl in *; lia).
    f_equal.
    rewrite wrap32_small by (rewrite length_app in *; simpl in *; lia).
    rewrite strcmp_zero.
    destruct suf as [|next suf].
    + replace (Z.of_nat (length pre) =?
               Z.of_nat (length (pre ++ [token]) + length []) - 1) with true
        by (symmetry; apply Z.eqb_eq; rewrite length_app; simpl; lia).
      cbn [render andb]. unfold fprintf_semi, fprintf_line.
      destruct (decide (kind = CXCursor_TypedefDecl ∧ token = "__attribute__"))
        as [[-> ->]|Hno].
      * rewrite !bool_decide_eq_true_2 by done. simpl andb. cbv iota.
        by rewrite append_empty_r.
      * rewrite append_empty_r.
        destruct (bool_decide (kind = CXCursor_TypedefDecl)) eqn:Hk;
          destruct (bool_decide (token = "__attribute__")) eqn:Ht; simpl; try done.
        apply bool_decide_eq_true_1 in Hk, Ht. tauto.
    + replace (Z.of_nat (length pre) =?
               Z.of_nat (length (pre ++ [token]) + length (next :: suf)) - 1)
        with false
        by (symmetry; apply Z.eqb_neq; rewrite length_app; simpl; lia).
      cbn [andb]. unfold fprintf_line.
      change (render kind (token :: next :: suf))
        with ((token +:+ newline) +:+ render kind (next :: suf)).
      by rewrite <- !append_assoc.
Qed.

Lemma dump_tokens_prefix kind (range extra : list string) (stream : FILE) :
  Z.of_nat (length range) ≤ UINT_MODULUS →
  dump_tokens kind (range ++ extra) (Z.of_nat (length range))
    (seqZ 0 (Z.of_nat (length range))) stream
  = Ret (stream +:+ render kind range).
Proof.
  intros Hfit.
  by apply (dump_tokens_render kind range [] extra stream).
Qed.

Lemma render_lines kind (tokens : list string) :
  ¬ (kind = CXCursor_TypedefDecl ∧ last tokens = Some "__attribute__") →
  render kind tokens = lines tokens.
Proof.
  induction tokens as [|token [|next rest] IH]; intros Hno; [done | |].
  - simpl. rewrite append_empty_r.
    destruct (decide _) as [[-> ->]|]; [| done]. by destruct Hno.
  - change (render kind (token :: next :: rest))
      with ((token +:+ newline) +:+ render kind (next :: rest)).
    rewrite IH; [done |]. intros [-> Hl]. by apply Hno.
Qed.

Lemma render_typedef_attribute (tokens : list string) :
  render CXCursor_TypedefDecl (tokens ++ ["__attribute__"]) = lines tokens +:+ "; ".
Proof.
  induction tokens as [|token rest IH]; [done |].
  destruct rest as [|next rest].
  - simpl. by rewrite append_empty_r.
  - change (render CXCursor_TypedefDecl ((token :: next :: rest) ++ ["__attribute__"]))
      with ((token +:+ newline)
              +:+ render CXCursor_TypedefDecl ((next :: rest) ++ ["__attribute__"])).
    rewrite IH. cbn [lines]. unfold line. by rewrite !append_assoc.
Qed.

(** ** [emit] *)

Lemma last_token_spelling (tokens : list string) (final : string) :
  Z.of_nat (length (tokens ++ [final])) < UINT_MODULUS →
  clang_getTokenSpelling (tokens ++ [final])
    (wrap32 (Z.of_nat (length (tokens ++ [final])) - 1)) = Ret final.
Proof.
  intros Hfit. rewrite length_app in *. simpl in *.
  rewrite wrap32_small by lia.
  replace (Z.of_nat (length tokens + 1) - 1) with (Z.of_nat (length tokens)) by lia.
  apply token_spelling_middle.
Qed.

(** [emit] appends to the stream the rendering of the range the design
    keeps, and never reads past the token array. *)
Lemma emit_render (stream : FILE) (cursor : CXCursor) :
  tokens_fit cursor →
  emit stream cursor
  = Ret (stream +:+ render (cursor_kind cursor) (emitted_range cursor)).
Proof.
  destruct cursor as [kind name isdef extent].
  unfold tokens_fit, emit, emitted_range, clang_tokenize, clang_getCursorKind,
    clang_isCursorDefinition. cbn [cursor_extent cursor_kind cursor_is_definition].
  intros Hfit.
  destruct extent as [|first others] using rev_ind.
  { simpl. by rewrite append_empty_r. }
  clear IHothers. rename others into tokens, first into final.
  rewrite last_snoc.
  destruct (Z.eqb_spec (Z.of_nat (length (tokens ++ [final]))) 0) as [H0|_].
  { rewrite length_app in H0. simpl in H0. lia. }
  rewrite last_token_spelling by done. cbn [mbind exec_bind].
  assert (Hall : dump_tokens kind (tokens ++ [final])
                   (Z.of_nat (length (tokens ++ [final])))
                   (seqZ 0 (Z.of_nat (length (tokens ++ [final])))) stream
                 = Ret (stream +:+ render kind (tokens ++ [final]))).
  { pose proof (dump_tokens_prefix kind (tokens ++ [final]) [] stream) as H.
    rewrite app_nil_r in H. apply H. lia. }
  assert (Hdrop : dump_tokens kind (tokens ++ [final])
                    (wrap32 (Z.of_nat (length (tokens ++ [final])) - 1))
                    (seqZ 0 (wrap32 (Z.of_nat (length (tokens ++ [final])) - 1)))
                    stream
                  = Ret (stream +:+ render kind tokens)).
  { rewrite length_app in *. simpl in *. rewrite wrap32_small by lia.
    replace (Z.of_nat (length tokens + 1) - 1) with (Z.of_nat (length tokens)) by lia.
    apply dump_tokens_prefix. lia. }
  unfold quirks, clang_isCursorDefinition. cbn [cursor_is_definition].
  rewrite !strcmp_zero.
  destruct kind; try exact Hall.
  - (* struct *)
    destruct (decide (final ≠ ";" ∧ final ≠ "}")) as [[H1 H2]|Hno].
    + rewrite !bool_decide_eq_false_2 by done. simpl. by rewrite append_empty_r.
    + destruct (bool_decide (final = ";")) eqn:E1;
        destruct (bool_decide (final = "}")) eqn:E2; simpl; try exact Hall.
      apply bool_decide_eq_false_1 in E1, E2. tauto.
  - (* union *)
    destruct (decide (final ≠ ";" ∧ final ≠ "}")) as [[H1 H2]|Hno].
    + rewrite !bool_decide_eq_false_2 by done. simpl. by rewrite append_empty_r.
    + destruct (bool_decide (final = ";")) eqn:E1;
        destruct (bool_decide (final = "}")) eqn:E2; simpl; try exact Hall.
      apply bool_decide_eq_false_1 in E1, E2. tauto.
  - (* enum *)
    destruct (decide (final ≠ ";" ∧ final ≠ "}")) as [[H1 H2]|Hno].
    + rewrite !bool_decide_eq_false_2 by done. simpl. by rewrite append_empty_r.
    + destruct (bool_decide (final = ";")) eqn:E1;
        destruct (bool_decide (final = "}")) eqn:E2; simpl; try exact Hall.
      apply bool_decide_eq_false_1 in E1, E2. tauto.
  - (* function *)
    destruct (decide (isdef = true ∧ final ≠ "}")) as [[-> H2]|Hno].
    + rewrite bool_decide_eq_false_2 by done. simpl andb. cbv iota.
      rewrite removelast_last. exact Hdrop.
    + destruct isdef; destruct (bool_decide (final = "}")) eqn:E2;
        simpl; try exact Hall.
      apply bool_decide_eq_false_1 in E2. tauto.
Qed.

(** C5: a function definition selected for emission loses exactly its last
    token when that token is not the closing brace, and loses nothing when
    its last token is the closing brace; what remains is printed one token
    per line. *)
Theorem emit_function_definition (stream : FILE) (cursor : CXCursor)
    (tokens : list string) (final : string) :
  cursor_kind cursor = CXCursor_FunctionDecl →
  cursor_is_definition cursor = true →
  cursor_extent cursor = tokens ++ [final] →
  tokens_fit cursor →
  emit stream cursor
  = Ret (stream +:+ lines (if decide (final = "}") then tokens ++ [final]
                           else tokens)).
Proof.
  intros Hkind Hdef Hext Hfit. rewrite emit_render by done.
  do 2 f_equal. rewrite render_lines.
  - unfold emitted_range. rewrite Hext, last_snoc, Hkind, Hdef.
    destruct (decide (final = "}")) as [->|Hne].
    + rewrite decide_False; [done | tauto].
    + rewrite decide_True by done. by rewrite removelast_last.
  - rewrite Hkind. intros [? _]. discriminate.
Qed.

Lemma emit_function_definition_witness :
  emit "" sample_function
  = Ret ("" +:+ lines (if decide ("struct" = "}")
                       then ["int"; "f"; "("; ")"; "{"; "}"] ++ ["struct"]
                       else ["int"; "f"; "("; ")"; "{"; "}"])).
Proof.
  apply (emit_function_definition "" sample_function
           ["int"; "f"; "("; ")"; "{"; "}"] "struct");
    [reflexivity | reflexivity | reflexivity | reflexivity].
Defined.

(** C6: a struct, union or enum declaration selected for emission whose
    last token is neither the semicolon nor the closing brace leaves the
    stream untouched; with any other last token all its tokens are printed,
    one per line. *)
Theorem emit_tag_declaration (stream : FILE) (cursor : CXCursor)
    (tokens : list string) (final : string) :
  cursor_kind cursor = CXCursor_StructDecl
  ∨ cursor_kind cursor = CXCursor_UnionDecl
  ∨ cursor_kind cursor = CXCursor_EnumDecl →
  cursor_extent cursor = tokens ++ [final] →
  tokens_fit cursor →
  emit stream cursor
  = Ret (if decide (final ≠ ";" ∧ final ≠ "}") then stream
         else stream +:+ lines (tokens ++ [final])).
Proof.
  intros Hkind Hext Hfit. rewrite emit_render by done. f_equal.
  rewrite render_lines
    by (intros [Ht _]; rewrite Ht in Hkind;
        destruct Hkind as [?|[?|?]]; discriminate).
  unfold emitted_range. rewrite Hext, last_snoc.
  destruct Hkind as [-> | [-> | ->]];
    (destruct (decide (final ≠ ";" ∧ final ≠ "}"));
     [by rewrite append_empty_r | done]).
Qed.

Lemma emit_tag_declaration_witness :
  emit "" sample_struct_fragment
  = Ret (if decide ("foo_t" ≠ ";" ∧ "foo_t" ≠ "}") then ""
         else "" +:+ lines (["struct"; "{"; "int"; "x"; ";"; "}"] ++ ["foo_t"])).
Proof.
  apply (emit_tag_declaration "" sample_struct_fragment
           ["struct"; "{"; "int"; "x"; ";"; "}"] "foo_t");
    [left; reflexivity | reflexivity | reflexivity].
Defined.

(** C7, refuted as stated: a declaration of another kind than typedef, with
    another last token than the attribute keyword, need not have every token
    printed.  The function definition [sample_function] is no typedef and
    does not end in the attribute keyword, yet its last token is not
    printed. *)
Lemma emit_other_kinds_counterexample :
  cursor_kind sample_function ≠ CXCursor_TypedefDecl
  ∧ last (cursor_extent sample_function) ≠ Some "__attribute__"
  ∧ ¬ prints_every_token "" sample_function.
Proof.
  split; [discriminate |]. split; [discriminate |].
  unfold prints_every_token. vm_compute. discriminate.
Qed.

(** C7, amended: a typedef whose last token spells [__attribute__] is
    printed with every earlier token on a line of its own and a semicolon
    and a space in place of the last token; in every other case each token
    of the emitted range (the extent, less the trailing token dropped from
    a function definition, and nothing for a struct, union or enum
    fragment) is printed literally, one per line. *)
Theorem emit_typedef_attribute (stream : FILE) (cursor : CXCursor) :
  tokens_fit cursor →
  (∀ tokens,
     cursor_kind cursor = CXCursor_TypedefDecl →
     cursor_extent cursor = tokens ++ ["__attribute__"] →
     emit stream cursor = Ret (stream +:+ lines tokens +:+ "; "))
  ∧ (¬ (cursor_kind cursor = CXCursor_TypedefDecl
        ∧ last (cursor_extent cursor) = Some "__attribute__") →
     emit stream cursor = Ret (stream +:+ lines (emitted_range cursor))).
Proof.
  intros Hfit. split.
  - intros tokens Hkind Hext. rewrite emit_render by done.
    unfold emitted_range. rewrite Hext, last_snoc, Hkind.
    by rewrite render_typedef_attribute.
  - intros Hno. rewrite emit_render by done.
    rewrite render_lines; [done |].
    intros [Hkind Hlast]. apply Hno. split; [done |].
    unfold emitted_range in Hlast. rewrite Hkind in Hlast.
    destruct (last (cursor_extent cursor)) eqn:E; [by rewrite <- E | done].
Qed.

Lemma emit_typedef_attribute_witness :
  emit "" sample_typedef
  = Ret ("" +:+ lines ["typedef"; "int"; "word_t"] +:+ "; ")
  ∧ emit "" sample_variable
    = Ret ("" +:+ lines (emitted_range sample_variable)).
Proof.
  split.
  - apply (emit_typedef_attribute "" sample_typedef);
      [reflexivity | reflexivity | reflexivity].
  - apply (emit_typedef_attribute "" sample_variable); [reflexivity |].
    intros [Hkind _]. discriminate Hkind.
Defined.

(** C10: for a declaration whose extent tokenizes to zero tokens, whatever
    its kind, [emit] leaves the stream as it was and returns normally: it
    reads no token (a read of the empty token array would be undefined) and
    applies no correction. *)
Theorem emit_no_tokens (stream : FILE) (cursor : CXCursor) :
  cursor_extent cursor = [] →
  emit stream cursor = Ret stream.
Proof.
  intros Hext. unfold emit, clang_tokenize. by rewrite Hext.
Qed.

Lemma emit_no_tokens_witness : emit "previous" sample_empty = Ret "previous".
Proof. apply (emit_no_tokens "previous" sample_empty). reflexivity. Defined.

(** ** The declaration selector *)

(** The visitor of the declaration walk follows the three checks of the
    selector. *)
Lemma visitor_by_select (cursor : CXCursor) (state : state_t) :
  visitor cursor state
  = match select (keep state) (blacklist state)
            (cursor_kind cursor) (cursor_spelling cursor) with
    | Skip => Ret (CXChildVisit_Continue, state)
    | Emit =>
        out' ← emit (out state) cursor;
        Ret (CXChildVisit_Continue,
             {| keep := keep state; blacklist := blacklist state;
                out := out' |})
    end.
Proof.
  unfold visitor, select, is_blacklisted, set_contains,
    clang_getCursorKind, clang_getCursorSpelling.
  destruct (decide (cursor_kind cursor = CXCursor_FunctionDecl)) as [Hk|Hk].
  - rewrite (bool_decide_eq_true_2 _ Hk).
    destruct (decide (cursor_spelling cursor ∈ keep state)) as [Hin|Hout].
    + rewrite (bool_decide_eq_true_2 _ Hin). cbn [negb].
      rewrite decide_False by tauto.
      destruct (decide (cursor_spelling cursor ∈ blacklist state)) as [Hb|Hb].
      * by rewrite (bool_decide_eq_true_2 _ Hb).
      * by rewrite (bool_decide_eq_false_2 _ Hb).
    + rewrite (bool_decide_eq_false_2 _ Hout). cbn [negb].
      by rewrite decide_True.
  - rewrite (bool_decide_eq_false_2 _ Hk). cbn [negb].
    rewrite decide_False by tauto.
    destruct (decide (cursor_spelling cursor ∈ blacklist state)) as [Hb|Hb].
    + by rewrite (bool_decide_eq_true_2 _ Hb).
    + by rewrite (bool_decide_eq_false_2 _ Hb).
Qed.

(** C2: for every top-level declaration the visitor takes the three checks
    of the selector in order (a function outside the keep-set is skipped,
    else a blacklisted name of any kind is skipped, else the declaration is
    handed to [emit]); in particular a declaration that is no function is
    handed to [emit] whenever its name is not blacklisted, whatever the
    keep-set holds. *)
Theorem visitor_select (cursor : CXCursor) (state : state_t) :
  visitor cursor state
  = match select (keep state) (blacklist state)
            (cursor_kind cursor) (cursor_spelling cursor) with
    | Skip => Ret (CXChildVisit_Continue, state)
    | Emit =>
        out' ← emit (out state) cursor;
        Ret (CXChildVisit_Continue,
             {| keep := keep state; blacklist := blacklist state;
                out := out' |})
    end
  ∧ (cursor_kind cursor ≠ CXCursor_FunctionDecl →
     cursor_spelling cursor ∉ blacklist state →
     visitor cursor state
     = (out' ← emit (out state) cursor;
        Ret (CXChildVisit_Continue,
             {| keep := keep state; blacklist := blacklist state;
                out := out' |}))).
Proof.
  split; [apply visitor_by_select |].
  intros Hkind Hblack. rewrite visitor_by_select. unfold select.
  rewrite decide_False by tauto. by rewrite decide_False.
Qed.

Lemma visitor_select_witness :
  visitor sample_variable
    {| keep := ∅; blacklist := {["f"]}; out := "" |}
  = (out' ← emit "" sample_variable;
     Ret (CXChildVisit_Continue,
          {| keep := ∅; blacklist := {["f"]}; out := out' |})).
Proof.
  refine (proj2 (visitor_select sample_variable
                   {| keep := ∅; blacklist := {["f"]}; out := "" |}) _ _).
  - discriminate.
  - simpl. intros H%elem_of_singleton. discriminate.
Defined.

(** C8: a declaration whose name is both in the closed keep-set and in the
    blacklist is never emitted: the visitor returns with the output stream
    (and the rest of its state) as it found it. *)
Theorem blacklist_precedence (cursor : CXCursor) (state : state_t) :
  cursor_spelling cursor ∈ keep state →
  cursor_spelling cursor ∈ blacklist state →
  visitor cursor state = Ret (CXChildVisit_Continue, state).
Proof.
  intros Hkeep Hblack.
  rewrite visitor_by_select. unfold select.
  destruct (decide _) as [|_]; [done |]. by rewrite decide_True.
Qed.

Lemma blacklist_precedence_witness :
  visitor sample_function
    {| keep := {["f"]}; blacklist := {["f"]}; out := "" |}
  = Ret (CXChildVisit_Continue,
         {| keep := {["f"]}; blacklist := {["f"]}; out := "" |}).
Proof.
  apply (blacklist_precedence sample_function
           {| keep := {["f"]}; blacklist := {["f"]}; out := "" |});
    simpl; by apply elem_of_singleton.
Defined.

(** ** The closure of the keep-set *)

Section closure.
Variable graph : cfg_t.

Lemma tc_calls_step caller entries x :
  graph caller = Some entries →
  tc (calls graph) caller x ↔
  ∃ callee, Some callee ∈ entries ∧ (x = callee ∨ tc (calls graph) callee x).
Proof.
  intros Hg. split.
  - intros H. inversion H as [? ? Hc | ? callee ? Hc Ht]; subst.
    + destruct Hc as (es & Hes & Hin). rewrite Hg in Hes.
      injection Hes as <-. exists x. tauto.
    + destruct Hc as (es & Hes & Hin). rewrite Hg in Hes.
      injection Hes as <-. exists callee. tauto.
  - intros (callee & Hin & [-> | Ht]).
    + apply tc_once. by exists entries.
    + eapply tc_l; [| exact Ht]. by exists entries.
Qed.

Lemma enumerated_refl (seen acc : set_t) : enumerated graph seen seen acc.
Proof. intros y Hin Hout. by destruct Hout. Qed.

Lemma enumerated_grow (before middle after acc acc' : set_t) :
  middle ⊆ after → acc ⊆ acc' →
  enumerated graph before middle acc →
  enumerated graph middle after acc' →
  enumerated graph before after acc'.
Proof.
  intros Hsub Hacc H1 H2 y Hin Hout.
  destruct (decide (y ∈ middle)) as [Hmid | Hmid].
  - destruct (H1 y Hmid Hout) as [Hg Hz]. split; [done |].
    intros z Hc. destruct (Hz z Hc). split; [by apply Hsub | by apply Hacc].
  - by apply H2.
Qed.

(** The loop over the callees of one caller: what it has met and
    accumulated when it ends with success. *)
Lemma visit_entries_ok descend caller :
  traversal_ok graph descend →
  ∀ entries seen st seen' st',
    visit_entries descend caller callee_visitor entries seen st
      = Ret (0, (seen', st')) →
    seen ⊆ seen' ∧ callees st ⊆ callees st'
    ∧ (∀ z, Some z ∈ entries → z ∈ seen' ∧ z ∈ callees st')
    ∧ enumerated graph seen seen' (callees st')
    ∧ (∀ x, x ∈ callees st' →
            x ∈ callees st
            ∨ ∃ c, Some c ∈ entries ∧ (x = c ∨ tc (calls graph) c x))
    ∧ (∀ x, x ∈ seen' →
            x ∈ seen
            ∨ ∃ c, Some c ∈ entries ∧ (x = c ∨ tc (calls graph) c x)).
Proof.
  intros Hdesc.
  induction entries as [|entry rest IH]; intros seen st seen' st' Hrun.
  - cbn in Hrun. injection Hrun as <- <-.
    split; [done |]. split; [done |].
    split; [intros z Hin; by apply elem_of_nil in Hin |].
    split; [apply enumerated_refl |].
    split; intros x Hx; by left.
  - destruct entry as [callee|]; cbn [visit_entries callee_visitor] in Hrun.
    + destruct (decide (callee ∈ seen)) as [Hseen | Hnew].
      * destruct (IH _ _ _ _ Hrun) as (Hs & Ha & Hz & He & Hca & Hse).
        cbn [callees] in *. unfold set_insert in *.
        split; [done |]. split.
        { intros x Hx. apply Ha, elem_of_union. by right. }
        split.
        { intros z [[= ->] | Hin]%elem_of_cons; [| by apply Hz].
          split; [by apply Hs |]. apply Ha, elem_of_union. left.
          by apply elem_of_singleton. }
        split; [done |]. split.
        { intros x Hx.
          destruct (Hca x Hx) as [[->%elem_of_singleton | H]%elem_of_union
                                 | (c & Hin & H)].
          - right. exists callee. split; [apply list_elem_of_here | by left].
          - by left.
          - right. exists c. split; [by apply list_elem_of_further | done]. }
        { intros x Hx. destruct (Hse x Hx) as [H | (c & Hin & H)]; [by left |].
          right. exists c. split; [by apply list_elem_of_further | done]. }
      * destruct (descend callee _ _) as [ | | [rc [seen2 st2]]] eqn:Hd;
          try discriminate.
        cbn [mbind exec_bind fst snd] in Hrun.
        destruct (Z.eqb_spec rc 0) as [-> | Hrc].
        2:{ injection Hrun as -> _ _. done. }
        destruct (Hdesc _ _ _ _ _ Hd)
          as (Hs1 & Ha1 & Hg1 & Hz1 & He1 & Hca1 & Hse1).
        destruct (IH _ _ _ _ Hrun) as (Hs & Ha & Hz & He & Hca & Hse).
        cbn [callees] in *. unfold set_insert in *.
        assert (Hc2 : callee ∈ seen2).
        { apply Hs1, elem_of_union. left. by apply elem_of_singleton. }
        split.
        { intros x Hx. apply Hs, Hs1, elem_of_union. by right. }
        split.
        { intros x Hx. apply Ha, Ha1, elem_of_union. by right. }
        split.
        { intros z [[= ->] | Hin]%elem_of_cons; [| by apply Hz].
          split; [by apply Hs |]. apply Ha, Ha1, elem_of_union. left.
          by apply elem_of_singleton. }
        split.
        { intros y Hin Hout.
          destruct (decide (y ∈ seen2)) as [Hy2 | Hy2]; [| by apply He].
          destruct (decide (y = callee)) as [-> | Hne].
          - split; [done |]. intros z Hc. destruct (Hz1 z Hc).
            split; [by apply Hs | by apply Ha].
          - destruct (He1 y Hy2) as [Hg Hzz].
            { intros [->%elem_of_singleton | H]%elem_of_union; done. }
            split; [done |]. intros z Hc. destruct (Hzz z Hc).
            split; [by apply Hs | by apply Ha]. }
        split.
        { intros x Hx. destruct (Hca x Hx) as [H2 | (c & Hin & H)].
          - destruct (Hca1 x H2)
              as [[->%elem_of_singleton | H]%elem_of_union | Ht].
            + right. exists callee. split; [apply list_elem_of_here | by left].
            + by left.
            + right. exists callee. split; [apply list_elem_of_here | by right].
          - right. exists c. split; [by apply list_elem_of_further | done]. }
        { intros x Hx. destruct (Hse x Hx) as [H2 | (c & Hin & H)].
          - destruct (Hse1 x H2)
              as [[->%elem_of_singleton | H]%elem_of_union | Ht].
            + right. exists callee. split; [apply list_elem_of_here | by left].
            + by left.
            + right. exists callee. split; [apply list_elem_of_here | by right].
          - right. exists c. split; [by apply list_elem_of_further | done]. }
    + destruct (IH _ _ _ _ Hrun) as (Hs & Ha & Hz & He & Hca & Hse).
      cbn [callees] in *.
      split; [done |]. split; [done |]. split.
      { intros z [[=] | Hin]%elem_of_cons. by apply Hz. }
      split; [done |]. split.
      { intros x Hx. destruct (Hca x Hx) as [H | (c & Hin & H)]; [by left |].
        right. exists c. split; [by apply list_elem_of_further | done]. }
      { intros x Hx. destruct (Hse x Hx) as [H | (c & Hin & H)]; [by left |].
        right. exists c. split; [by apply list_elem_of_further | done]. }
Qed.

Lemma visit_symbol_ok fuel :
  traversal_ok graph (visit_symbol fuel graph callee_visitor).
Proof.
  induction fuel as [|fuel IH]; intros caller seen st seen' st' Hrun; [done |].
  cbn [visit_symbol] in Hrun.
  destruct (graph caller) as [entries|] eqn:Hg; [| done].
  destruct (visit_entries_ok _ caller IH _ _ _ _ _ Hrun)
    as (Hs & Ha & Hz & He & Hca & Hse).
  split; [done |]. split; [done |]. split; [done |]. split.
  { intros z (es & Hes & Hin). rewrite Hg in Hes. injection Hes as <-.
    by apply Hz. }
  split; [done |]. split.
  - intros x Hx. destruct (Hca x Hx) as [H | H]; [by left |].
    right. by apply (tc_calls_step _ _ _ Hg).
  - intros x Hx. destruct (Hse x Hx) as [H | H]; [by left |].
    right. by apply (tc_calls_step _ _ _ Hg).
Qed.

(** A successful traversal from [caller] has enumerated the callees of
    [caller] and of everything it met, and has accumulated nothing but
    what [caller] reaches. *)
Lemma cfg_visit_callees_ok fuel caller st st' :
  cfg_visit_callees fuel graph caller callee_visitor st = Ret (0, st') →
  ∃ seen' : set_t,
    caller ∈ seen'
    ∧ (∀ y, y ∈ seen' →
         graph y ≠ None ∧ ∀ z, calls graph y z → z ∈ seen' ∧ z ∈ callees st')
    ∧ callees st ⊆ callees st'
    ∧ (∀ x, x ∈ callees st' → x ∈ callees st ∨ tc (calls graph) caller x).
Proof.
  unfold cfg_visit_callees. intros Hrun.
  destruct (visit_symbol _ _ _ _ _ _) as [ | | [rc [seen' st2]]] eqn:Hv;
    try discriminate.
  cbn [mbind exec_bind fst snd] in Hrun. injection Hrun as -> ->.
  destruct (visit_symbol_ok _ _ _ _ _ _ Hv)
    as (Hs & Ha & Hg & Hz & He & Hca & _).
  exists seen'. split; [apply Hs; by apply elem_of_singleton |].
  split; [| by split].
  intros y Hy. destruct (decide (y = caller)) as [-> | Hne]; [by split |].
  apply He; [done |]. by intros ->%elem_of_singleton.
Qed.

Lemma cfg_visit_callees_adds fuel :
  adds_reachable graph
    (λ caller st, cfg_visit_callees fuel graph caller callee_visitor st).
Proof.
  intros caller st st' Hrun x.
  destruct (cfg_visit_callees_ok _ _ _ _ Hrun) as (seen' & Hc & Hall & Ha & Hso).
  split; [apply Hso |]. intros [Hx | Ht]; [by apply Ha |].
  assert (Hgen : ∀ y, tc (calls graph) y x → y ∈ seen' →
                      x ∈ seen' ∧ x ∈ callees st').
  { clear Ht. intros y Ht. induction Ht as [y x Hyx | y z x Hyz Ht IH];
      intros Hy.
    - by apply (Hall y Hy).
    - apply IH. by apply (Hall y Hy). }
  by apply (Hgen caller).
Qed.

(** A successful traversal shows that the adapter answers for [caller]
    and for everything [caller] reaches. *)
Lemma cfg_visit_callees_enumerated fuel caller st st' :
  cfg_visit_callees fuel graph caller callee_visitor st = Ret (0, st') →
  ∀ x, x = caller ∨ tc (calls graph) caller x → graph x ≠ None.
Proof.
  intros Hrun.
  destruct (cfg_visit_callees_ok _ _ _ _ Hrun) as (seen' & Hc & Hall & _ & _).
  assert (Hgen : ∀ y x, tc (calls graph) y x → y ∈ seen' → x ∈ seen').
  { intros y x Ht. induction Ht as [y x Hyx | y z x Hyz Ht IH]; intros Hy.
    - by apply (Hall y Hy).
    - apply IH. by apply (Hall y Hy). }
  intros x [-> | Ht]; [by apply (Hall caller) |].
  apply (Hall x). by apply (Hgen caller).
Qed.

Lemma merge_loop_adds fuel callers :
  ∀ st st',
    merge_loop fuel graph callers st = Ret (0, st') →
    ∀ x, x ∈ callees st' ↔
         x ∈ callees st ∨ ∃ k, k ∈ callers ∧ tc (calls graph) k x.
Proof.
  induction callers as [|caller rest IH]; intros st st' Hrun x.
  - simpl in Hrun. injection Hrun as <-. split; [tauto |].
    intros [H | (k & Hin & _)]; [done |]. by apply elem_of_nil in Hin.
  - cbn [merge_loop] in Hrun.
    destruct (cfg_visit_callees fuel graph caller callee_visitor st)
      as [ | | [rc st1]] eqn:Hv; try discriminate.
    cbn [mbind exec_bind fst snd] in Hrun.
    destruct (Z.eqb_spec rc 0) as [-> | Hrc]; [| discriminate].
    cbn [negb] in Hrun.
    rewrite (IH _ _ Hrun x), (cfg_visit_callees_adds fuel _ _ _ Hv x). split.
    + intros [[H | H] | (k & Hin & H)]; [tauto | |].
      * right. exists caller. split; [apply elem_of_cons; tauto | done].
      * right. exists k. split; [apply elem_of_cons; tauto | done].
    + intros [H | (k & Hin & H)]; [tauto |].
      apply elem_of_cons in Hin as [-> | Hin]; [tauto |].
      right. by exists k.
Qed.

Lemma merge_loop_enumerated fuel callers :
  ∀ st st',
    merge_loop fuel graph callers st = Ret (0, st') →
    ∀ k x, k ∈ callers → x = k ∨ tc (calls graph) k x → graph x ≠ None.
Proof.
  induction callers as [|caller rest IH]; intros st st' Hrun k x Hin Hx.
  - by apply elem_of_nil in Hin.
  - cbn [merge_loop] in Hrun.
    destruct (cfg_visit_callees fuel graph caller callee_visitor st)
      as [ | | [rc st1]] eqn:Hv; try discriminate.
    cbn [mbind exec_bind fst snd] in Hrun.
    destruct (Z.eqb_spec rc 0) as [-> | Hrc]; [| discriminate].
    cbn [negb] in Hrun.
    apply elem_of_cons in Hin as [-> | Hin].
    + by eapply cfg_visit_callees_enumerated.
    + by eapply IH.
Qed.

(** A successful [merge_callees] leaves in [keeps] the members it had and
    everything these reach by calls. *)
Lemma merge_callees_members fuel (keeps keeps' : set_t) (err : FILE) :
  merge_callees fuel keeps graph = Ret (0, keeps', err) →
  ∀ x, x ∈ keeps' ↔ x ∈ keeps ∨ ∃ k, k ∈ keeps ∧ tc (calls graph) k x.
Proof.
  unfold merge_callees. intros Hrun x.
  destruct (merge_loop _ _ _ _) as [ | | [rc st1]] eqn:Hl; try discriminate.
  cbn [mbind exec_bind fst snd] in Hrun.
  destruct (Z.eqb_spec rc 0) as [-> | Hrc]; [| discriminate].
  cbn [negb] in Hrun. injection Hrun as <- _.
  unfold set_union. rewrite elem_of_union.
  rewrite (merge_loop_adds _ _ _ _ Hl x). cbn [callees]. unfold set, set_iter.
  setoid_rewrite elem_of_elements.
  split; [intros [H | [H | H]] | tauto]; [tauto | | tauto].
  by apply elem_of_empty in H.
Qed.

(** A successful [merge_callees] shows that the adapter answers for every
    symbol of the keep-set it leaves. *)
Lemma merge_callees_enumerated fuel (keeps keeps' : set_t) (err : FILE) :
  merge_callees fuel keeps graph = Ret (0, keeps', err) →
  no_lookup_error graph keeps'.
Proof.
  intros Hrun x Hx.
  apply (merge_callees_members _ _ _ _ Hrun) in Hx.
  unfold merge_callees in Hrun.
  destruct (merge_loop _ _ _ _) as [ | | [rc st1]] eqn:Hl; try discriminate.
  cbn [mbind exec_bind fst snd] in Hrun.
  destruct (Z.eqb_spec rc 0) as [-> | Hrc]; [| discriminate].
  destruct Hx as [Hx | (k & Hk & Ht)].
  - eapply (merge_loop_enumerated _ _ _ _ Hl x x); [| by left].
    by apply elem_of_elements.
  - eapply (merge_loop_enumerated _ _ _ _ Hl k x); [| by right].
    by apply elem_of_elements.
Qed.

Lemma closed_contains_reachable (S : set_t) k x :
  closed_under_calls graph S → k ∈ S → tc (calls graph) k x → x ∈ S.
Proof.
  intros Hclosed Hk Ht. induction Ht as [a b Hc | a b c Hc Ht IH].
  - by eapply Hclosed.
  - apply IH. by eapply Hclosed.
Qed.

(** The keep-set a successful [merge_callees] leaves is the smallest
    superset of the keep-set it was given that is closed under calls. *)
Lemma merge_callees_smallest fuel (keeps keeps' : set_t) (err : FILE) :
  merge_callees fuel keeps graph = Ret (0, keeps', err) →
  smallest_closed_superset graph keeps keeps'.
Proof.
  intros Hrun. pose proof (merge_callees_members _ _ _ _ Hrun) as Hmem.
  split; [| split].
  - intros x Hx. apply Hmem. by left.
  - intros caller callee Hin Hc. apply Hmem. right.
    apply Hmem in Hin as [Hin | (k & Hk & Ht)].
    + exists caller. split; [done | by apply tc_once].
    + exists k. split; [done |]. eapply tc_r; [exact Ht | exact Hc].
  - intros S' Hsub Hclosed x Hx.
    apply Hmem in Hx as [Hx | (k & Hk & Ht)]; [by apply Hsub |].
    eapply closed_contains_reachable; [done | by apply Hsub | done].
Qed.
End closure.

(** ** The recursion budget *)

Lemma visit_entries_mono {St : Type}
    (shallow deep : string → set_t → St → exec (Z * (set_t * St)))
    caller visit entries :
  (∀ callee seen st r,
     shallow callee seen st = Ret r → deep callee seen st = Ret r) →
  ∀ seen st r,
    visit_entries shallow caller visit entries seen st = Ret r →
    visit_entries deep caller visit entries seen st = Ret r.
Proof.
  intros Hdeep. induction entries as [|entry rest IH]; intros seen st r Hrun;
    [done |].
  cbn [visit_entries] in *.
  destruct (visit entry caller st) as [answer st1].
  destruct answer, entry as [callee|]; try done; try by apply IH.
  destruct (decide (callee ∈ seen)); [by apply IH |].
  destruct (shallow callee _ st1) as [ | | r1] eqn:Hs; try done.
  rewrite (Hdeep _ _ _ _ Hs). cbn [mbind exec_bind] in *.
  destruct (fst r1 =? 0); [by apply IH | done].
Qed.

Lemma visit_symbol_mono {St : Type} (graph : cfg_t) visit fuel :
  ∀ caller seen (st : St) r,
    visit_symbol fuel graph visit caller seen st = Ret r →
    visit_symbol (S fuel) graph visit caller seen st = Ret r.
Proof.
  induction fuel as [|fuel IH]; intros caller seen st r Hrun; [done |].
  cbn [visit_symbol] in Hrun.
  change (visit_symbol (S (S fuel)) graph visit caller seen st)
    with (match graph caller with
          | None => Ret (-1, (seen, st))
          | Some entries =>
              visit_entries (visit_symbol (S fuel) graph visit)
                caller visit entries seen st
          end).
  destruct (graph caller) as [entries|]; [| done].
  eapply visit_entries_mono; [| exact Hrun]. apply IH.
Qed.

(** A result obtained within some recursion depth is the result for every
    greater depth. *)
Lemma cfg_visit_callees_mono {St : Type} (graph : cfg_t) visit fuel :
  ∀ caller (st : St) r,
    cfg_visit_callees fuel graph caller visit st = Ret r →
    cfg_visit_callees (S fuel) graph caller visit st = Ret r.
Proof.
  unfold cfg_visit_callees. intros caller st r Hrun.
  destruct (visit_symbol fuel graph visit caller _ st) as [ | | r1] eqn:Hv;
    try done.
  by rewrite (visit_symbol_mono _ _ _ _ _ _ _ Hv).
Qed.

Lemma merge_callees_mono (graph : cfg_t) fuel (keeps : set_t) r :
  merge_callees fuel keeps graph = Ret r →
  merge_callees (S fuel) keeps graph = Ret r.
Proof.
  unfold merge_callees.
  assert (Hloop : ∀ callers st r0,
             merge_loop fuel graph callers st = Ret r0 →
             merge_loop (S fuel) graph callers st = Ret r0).
  { induction callers as [|caller rest IH]; intros st r0 Hrun; [done |].
    cbn [merge_loop] in *.
    destruct (cfg_visit_callees fuel graph caller callee_visitor st)
      as [ | | r1] eqn:Hv; try done.
    rewrite (cfg_visit_callees_mono _ _ _ _ _ _ Hv).
    cbn [mbind exec_bind] in *.
    destruct (negb (fst r1 =? 0)); [done | by apply IH]. }
  destruct (merge_loop fuel graph (set_iter keeps) _) as [ | | r1] eqn:Hl;
    try done.
  intros Hrun. by rewrite (Hloop _ _ _ Hl).
Qed.

(** ** Termination of the closure *)

Lemma size_difference_insert (U seen : set_t) (x : string) :
  x ∈ U → x ∉ seen →
  (size (U ∖ ({[x]} ∪ seen)) < size (U ∖ seen))%nat.
Proof.
  intros Hin Hout.
  assert (Heq : U ∖ seen = {[x]} ∪ U ∖ ({[x]} ∪ seen)).
  { apply set_eq. intros y.
    rewrite elem_of_union, !elem_of_difference, elem_of_union,
      elem_of_singleton.
    destruct (decide (y = x)) as [-> | Hne]; tauto. }
  assert (Hsize : size (U ∖ seen) = size (U ∖ seen)) by done.
  rewrite Heq in Hsize at 2.
  rewrite (size_union (C:=gset string) {[x]} (U ∖ ({[x]} ∪ seen))) in Hsize.
  - rewrite size_singleton in Hsize. lia.
  - intros y ->%elem_of_singleton [_ Hn]%elem_of_difference.
    apply Hn, elem_of_union. left. by apply elem_of_singleton.
Qed.

Section termination.
Variable graph : cfg_t.
Variable U : set_t.
Hypothesis U_closed : closed_under_calls graph U.

Lemma visit_entries_returns descend caller (budget : nat) :
  returns_within graph U budget descend →
  ∀ entries seen st,
    (∀ callee, Some callee ∈ entries → callee ∈ U) →
    seen ⊆ U → (size (U ∖ seen) ≤ budget)%nat →
    ∃ rc seen' st',
      visit_entries descend caller callee_visitor entries seen st
        = Ret (rc, (seen', st'))
      ∧ seen ⊆ seen' ∧ seen' ⊆ U
      ∧ (no_lookup_error graph U → rc = 0).
Proof.
  intros Hdesc.
  induction entries as [|entry rest IH]; intros seen st Hin Hsub Hsize.
  - by exists 0, seen, st.
  - assert (Hrest : ∀ callee, Some callee ∈ rest → callee ∈ U).
    { intros callee Hc. apply Hin. by apply list_elem_of_further. }
    destruct entry as [callee|]; cbn [visit_entries callee_visitor].
    + destruct (decide (callee ∈ seen)) as [Hseen | Hnew];
        [by apply IH |].
      assert (HcU : callee ∈ U) by (apply Hin, list_elem_of_here).
      destruct (Hdesc callee ({[callee]} ∪ seen)
                  {| callees := set_insert (callees st) callee;
                     stderr := stderr st |})
        as (rc & seen2 & st2 & -> & Hs2 & HU2 & Hrc).
      * done.
      * intros y [->%elem_of_singleton | Hy]%elem_of_union;
          [done | by apply Hsub].
      * pose proof (size_difference_insert U seen callee HcU Hnew). lia.
      * cbn [mbind exec_bind fst snd].
        assert (Hs : seen ⊆ seen2).
        { intros y Hy. apply Hs2, elem_of_union. by right. }
        destruct (rc =? 0).
        -- destruct (IH seen2 st2 Hrest HU2)
             as (rc' & seen' & st' & -> & Hs' & HU' & Hrc').
           { assert (Hle : U ∖ seen2 ⊆ U ∖ seen).
             { intros y [Hy Hn]%elem_of_difference.
               apply elem_of_difference. split; [done |].
               intros Hy2. by apply Hn, Hs. }
             apply subseteq_size in Hle. lia. }
           exists rc', seen', st'. split; [done |].
           split; [| by split]. intros y Hy. by apply Hs', Hs.
        -- by exists rc, seen2, st2.
    + by apply IH.
Qed.

(** A budget of more levels than there are symbols not met yet is
    enough. *)
Lemma visit_symbol_returns fuel :
  returns_within graph U fuel (visit_symbol fuel graph callee_visitor).
Proof.
  induction fuel as [|fuel IH]; intros caller seen st Hin Hsub Hsize; [lia |].
  cbn [visit_symbol].
  destruct (graph caller) as [entries|] eqn:Hg.
  - apply (visit_entries_returns _ caller fuel IH); [| done | lia].
    intros callee Hc. apply (U_closed caller callee Hin). by exists entries.
  - exists (-1), seen, st. split; [done |]. split; [done |]. split; [done |].
    intros Hok. by destruct (Hok caller Hin).
Qed.

(** A recursion depth of the number of symbols is enough. *)
Lemma cfg_visit_callees_returns fuel caller st :
  caller ∈ U → (size U ≤ fuel)%nat →
  ∃ rc st',
    cfg_visit_callees fuel graph caller callee_visitor st = Ret (rc, st')
    ∧ (no_lookup_error graph U → rc = 0).
Proof.
  intros Hin Hsize. unfold cfg_visit_callees.
  destruct (visit_symbol_returns fuel caller {[caller]} st)
    as (rc & seen' & st' & -> & _ & _ & Hrc).
  - done.
  - by intros y ->%elem_of_singleton.
  - pose proof (size_difference_insert U ∅ caller Hin) as Hlt.
    rewrite union_empty_r_L, difference_empty_L in Hlt.
    assert (caller ∉ (∅ : set_t)) by (intros H; by apply elem_of_empty in H).
    specialize (Hlt H). lia.
  - cbn [mbind exec_bind fst snd]. by exists rc, st'.
Qed.

Lemma merge_loop_returns fuel callers :
  (∀ k, k ∈ callers → k ∈ U) → (size U ≤ fuel)%nat →
  ∀ st, ∃ rc st',
    merge_loop fuel graph callers st = Ret (rc, st')
    ∧ (no_lookup_error graph U → rc = 0).
Proof.
  intros Hin Hfuel. induction callers as [|caller rest IH]; intros st.
  - by exists 0, st.
  - cbn [merge_loop].
    destruct (cfg_visit_callees_returns fuel caller st)
      as (rc & st1 & -> & Hrc).
    + apply Hin, elem_of_cons. tauto.
    + done.
    + cbn [mbind exec_bind fst snd].
      destruct (Z.eqb_spec rc 0) as [-> | Hne]; cbn [negb].
      * apply IH. intros k Hk. apply Hin, elem_of_cons. tauto.
      * exists (-1), st1. split; [done |]. intros Hok. by destruct Hne, Hrc.
Qed.

Lemma merge_callees_returns_within fuel (keeps : set_t) :
  keeps ⊆ U → (size U ≤ fuel)%nat →
  ∃ rc keeps' err,
    merge_callees fuel keeps graph = Ret (rc, keeps', err)
    ∧ (no_lookup_error graph U → rc = 0).
Proof.
  intros Hsub Hfuel. unfold merge_callees.
  destruct (merge_loop_returns fuel (set_iter keeps)) with
    (st := {| callees := set; stderr := "" |})
    as (rc & st1 & -> & Hrc); [| done |].
  - intros k Hk. apply Hsub. by apply elem_of_elements.
  - cbn [mbind exec_bind fst snd].
    destruct (Z.eqb_spec rc 0) as [-> | Hne]; cbn [negb].
    + by eexists 0, _, _.
    + eexists (-1), _, _. split; [done |]. intros Hok. by destruct Hne, Hrc.
Qed.

(** C3: for every call graph, cyclic ones included, the closure
    computation of [merge_callees] terminates.  With the keep-set and the
    callees of the graph among the finitely many symbols of [U], it
    returns within a recursion depth of the number of distinct symbols,
    whatever cycles the graph has. *)
Theorem merge_callees_returns fuel (keeps : set_t) :
  keeps ⊆ U → (size U ≤ fuel)%nat →
  ∃ r, merge_callees fuel keeps graph = Ret r.
Proof.
  intros Hsub Hfuel.
  destruct (merge_callees_returns_within fuel keeps Hsub Hfuel)
    as (rc & keeps' & err & -> & _).
  by eexists.
Qed.

(** When the adapter reports no error, [merge_callees] succeeds and leaves
    the keep-set with everything it reaches. *)
Corollary merge_callees_computes_closure fuel (keeps : set_t) :
  keeps ⊆ U → (size U ≤ fuel)%nat → no_lookup_error graph U →
  ∃ keeps' err,
    merge_callees fuel keeps graph = Ret (0, keeps', err)
    ∧ (∀ x, x ∈ keeps' ↔ x ∈ keeps ∨ ∃ k, k ∈ keeps ∧ tc (calls graph) k x).
Proof.
  intros Hsub Hfuel Hok.
  destruct (merge_callees_returns_within fuel keeps Hsub Hfuel)
    as (rc & keeps' & err & Hrun & Hrc).
  rewrite (Hrc Hok) in Hrun. exists keeps', err. split; [done |].
  by apply (merge_callees_members graph fuel keeps keeps' err).
Qed.
End termination.

Lemma recursive_graph_closed :
  closed_under_calls recursive_graph recursive_symbols.
Proof.
  intros caller callee _ (entries & Hg & Hin). unfold recursive_graph in Hg.
  unfold recursive_symbols. rewrite !elem_of_union, !elem_of_singleton.
  destruct (decide (caller = "f")); [| destruct (decide (caller = "g"))];
    injection Hg as <-.
  - apply elem_of_cons in Hin as [[= ->] | Hin]; [tauto |].
    by apply elem_of_nil in Hin.
  - apply elem_of_cons in Hin as [[= ->] | Hin]; [tauto |].
    apply elem_of_cons in Hin as [[= ->] | Hin]; [tauto |].
    by apply elem_of_nil in Hin.
  - by apply elem_of_nil in Hin.
Qed.

Lemma recursive_graph_answers :
  no_lookup_error recursive_graph recursive_symbols.
Proof.
  intros x _. unfold recursive_graph.
  destruct (decide (x = "f")); [done |]. by destruct (decide (x = "g")).
Qed.

(** C1: for every call graph and every initial keep-set, when
    [merge_callees] returns zero the keep-set it leaves is the smallest
    superset of the initial keep-set that contains every callee (the
    undefined marker apart) of each of its members; and [merge_callees]
    does return zero, within a recursion depth of the number of symbols,
    whenever the keep-set and the callees of the graph lie among finitely
    many symbols for which the adapter answers, whatever cycles the graph
    has. *)
Theorem merge_callees_closure (graph : cfg_t) (keeps : set_t) :
  (∀ fuel keeps' err,
     merge_callees fuel keeps graph = Ret (0, keeps', err) →
     smallest_closed_superset graph keeps keeps')
  ∧ (∀ (U : set_t) fuel,
       keeps ⊆ U → closed_under_calls graph U → no_lookup_error graph U →
       (size U ≤ fuel)%nat →
       ∃ keeps' err,
         merge_callees fuel keeps graph = Ret (0, keeps', err)
         ∧ smallest_closed_superset graph keeps keeps').
Proof.
  split.
  - intros fuel keeps' err. apply merge_callees_smallest.
  - intros U fuel Hsub Hclosed Hok Hfuel.
    destruct (merge_callees_computes_closure graph U Hclosed fuel keeps
                Hsub Hfuel Hok) as (keeps' & err & Hrun & _).
    exists keeps', err. split; [done |].
    by eapply merge_callees_smallest.
Qed.

Lemma merge_callees_closure_witness :
  smallest_closed_superset recursive_graph {["f"]} {["f"; "g"; "h"]}
  ∧ ∃ keeps' err,
      merge_callees 3 {["f"]} recursive_graph = Ret (0, keeps', err)
      ∧ smallest_closed_superset recursive_graph {["f"]} keeps'.
Proof.
  split.
  - apply (proj1 (merge_callees_closure recursive_graph {["f"]})
             3%nat {["f"; "g"; "h"]} "").
    vm_compute. reflexivity.
  - apply (proj2 (merge_callees_closure recursive_graph {["f"]})
             recursive_symbols 3%nat).
    + intros x ->%elem_of_singleton. unfold recursive_symbols.
      rewrite !elem_of_union, !elem_of_singleton. tauto.
    + exact recursive_graph_closed.
    + exact recursive_graph_answers.
    + vm_compute. lia.
Defined.

Lemma merge_callees_returns_witness :
  ∃ r, merge_callees 3 {["f"]} recursive_graph = Ret r.
Proof.
  apply (merge_callees_returns recursive_graph recursive_symbols
           recursive_graph_closed 3 {["f"]}).
  - intros x ->%elem_of_singleton. unfold recursive_symbols.
    rewrite !elem_of_union, !elem_of_singleton. tauto.
  - vm_compute. lia.
Defined.

Lemma table_symbols_closed
    (table : gmap string (option (list (option string)))) (keeps : set_t) :
  closed_under_calls (cfg_of_table table) (keeps ∪ table_symbols table).
Proof.
  intros caller callee _ (entries & Hg & Hin). unfold cfg_of_table in Hg.
  apply elem_of_union. right. apply elem_of_union. right.
  destruct (table !! caller) as [answer|] eqn:Hlook; cbn in Hg.
  - subst answer. apply elem_of_union_list.
    exists (callee_names (Some entries)). split.
    + apply list_elem_of_fmap.
      exists (caller, Some entries). split; [done |].
      by apply elem_of_map_to_list.
    + cbn. apply elem_of_list_to_set, list_elem_of_omap.
      by exists (Some callee).
  - injection Hg as <-. by apply elem_of_nil in Hin.
Qed.

(** For a call graph given by a finite table, [merge_callees] returns for
    every keep-set within a recursion depth of the number of distinct
    symbols, whatever cycles the table has. *)
Corollary merge_callees_returns_on_tables
    (table : gmap string (option (list (option string)))) (keeps : set_t) :
  ∃ r,
    merge_callees (size (keeps ∪ table_symbols table)) keeps
      (cfg_of_table table) = Ret r.
Proof.
  destruct (merge_callees_returns_within (cfg_of_table table)
              (keeps ∪ table_symbols table)
              (table_symbols_closed table keeps)
              (size (keeps ∪ table_symbols table)) keeps)
    as (rc & keeps' & err & -> & _); [| done | by eexists].
  intros x Hx. apply elem_of_union. by left.
Qed.

(** On the call graph of a function [f] that calls itself, with [f] in the
    keep-set, the closure is [f] alone. *)
Example closure_of_self_recursion :
  merge_callees 1 {["f"]} loop_graph = Ret (0, {["f"]}, "").
Proof. vm_compute. reflexivity. Qed.

(** ** The blacklist and the closure *)

Lemma visitor_returns (cursor : CXCursor) (state : state_t) :
  tokens_fit cursor →
  ∃ state', visitor cursor state = Ret (CXChildVisit_Continue, state')
            ∧ keep state' = keep state ∧ blacklist state' = blacklist state.
Proof.
  intros Hfit. rewrite visitor_by_select.
  destruct (select _ _ _ _); [by eexists |].
  rewrite emit_render by done. cbn [mbind exec_bind]. by eexists.
Qed.

Lemma clang_visitChildren_returns (tu : list CXCursor) (state : state_t) :
  Forall tokens_fit tu →
  ∃ state', clang_visitChildren tu visitor state = Ret state'
            ∧ keep state' = keep state ∧ blacklist state' = blacklist state.
Proof.
  intros Hfit. revert state.
  induction Hfit as [|cursor rest Hc Hrest IH]; intros state; [by eexists |].
  cbn [clang_visitChildren].
  destruct (visitor_returns cursor state Hc) as (st1 & -> & Hk & Hb).
  cbn [mbind exec_bind fst snd].
  destruct (IH st1) as (st2 & -> & Hk2 & Hb2).
  exists st2. split; [done |]. split; congruence.
Qed.

(** The keep-set of the declaration walk is what [merge_callees] leaves of
    the keep-set of the options; the blacklist is not consulted for it. *)
Lemma closure_of_run_merge fuel (o : options_t) (graph : cfg_t)
    (tu : list CXCursor) :
  Forall tokens_fit tu →
  closure_of_run fuel o graph tu
  = (r ← merge_callees fuel (o_keep o) graph; Ret (snd (fst r))).
Proof.
  intros Hfit. unfold closure_of_run, main_from_cfg.
  destruct (merge_callees fuel (o_keep o) graph) as [ | | [[rc keeps] err]];
    [done | done |].
  cbn [mbind exec_bind fst snd].
  destruct (rc =? 0); cbn [negb]; [| done].
  destruct (clang_visitChildren_returns tu
              {| keep := keeps; blacklist := o_blacklist o; out := "" |} Hfit)
    as (st & -> & Hk & _).
  cbn [mbind exec_bind closed_keep]. by rewrite Hk.
Qed.

(** C9: the closure does not depend on the blacklist.  Two runs on the same
    call graph and translation unit whose options agree on the keep-set
    walk the declarations with the same closed keep-set, whatever their
    blacklists.  When the symbols are finitely many and the adapter answers
    for them, the run succeeds and that keep-set is the smallest superset
    of the initial keep-set closed under calls: nothing is taken out of it
    for being blacklisted, and the callees of a blacklisted member are in
    it. *)
Theorem closure_ignores_blacklist fuel (o o' : options_t) (graph : cfg_t)
    (tu : list CXCursor) :
  Forall tokens_fit tu →
  o_keep o = o_keep o' →
  closure_of_run fuel o graph tu = closure_of_run fuel o' graph tu
  ∧ ∀ U : set_t,
      o_keep o ⊆ U → closed_under_calls graph U →
      no_lookup_error graph U → (size U ≤ fuel)%nat →
      ∃ r,
        main_from_cfg fuel o graph tu = Ret r
        ∧ exit_status r = 0
        ∧ smallest_closed_superset graph (o_keep o) (closed_keep r)
        ∧ (∀ caller,
             caller ∈ o_blacklist o → caller ∈ o_keep o →
             caller ∈ closed_keep r)
        ∧ (∀ caller callee,
             caller ∈ o_blacklist o → caller ∈ closed_keep r →
             calls graph caller callee → callee ∈ closed_keep r).
Proof.
  intros Hfit Hkeep. split.
  - rewrite !closure_of_run_merge by done. by rewrite Hkeep.
  - intros U Hsub Hclosed Hok Hfuel.
    destruct (merge_callees_computes_closure graph U Hclosed fuel (o_keep o)
                Hsub Hfuel Hok) as (keeps' & err & Hrun & _).
    pose proof (merge_callees_smallest _ _ _ _ _ Hrun) as Hsmall.
    destruct (clang_visitChildren_returns tu
                {| keep := keeps'; blacklist := o_blacklist o; out := "" |}
                Hfit) as (st & Hv & Hk & _).
    cbn [keep] in Hk.
    exists {| exit_status := 0; closed_keep := keep st;
              output_file := out st; error_stream := err |}.
    split.
    { unfold main_from_cfg. rewrite Hrun. cbn [mbind exec_bind].
      change (0 =? 0) with true. cbn [negb]. by rewrite Hv. }
    cbn [exit_status closed_keep]. rewrite Hk.
    split; [done |]. split; [done |].
    destruct Hsmall as (Hsup & Hcl & _). split.
    + intros caller _ Hin. by apply Hsup.
    + intros caller callee _ Hin Hc. by eapply Hcl.
Qed.

Lemma closure_ignores_blacklist_witness :
  closure_of_run 3 sample_options_blacklisting recursive_graph
    [sample_function]
  = closure_of_run 3 sample_options recursive_graph [sample_function]
  ∧ ∀ U : set_t,
      o_keep sample_options_blacklisting ⊆ U →
      closed_under_calls recursive_graph U →
      no_lookup_error recursive_graph U → (size U ≤ 3)%nat →
      ∃ r,
        main_from_cfg 3 sample_options_blacklisting recursive_graph
          [sample_function] = Ret r
        ∧ exit_status r = 0
        ∧ smallest_closed_superset recursive_graph
            (o_keep sample_options_blacklisting) (closed_keep r)
        ∧ (∀ caller,
             caller ∈ o_blacklist sample_options_blacklisting →
             caller ∈ o_keep sample_options_blacklisting →
             caller ∈ closed_keep r)
        ∧ (∀ caller callee,
             caller ∈ o_blacklist sample_options_blacklisting →
             caller ∈ closed_keep r →
             calls recursive_graph caller callee → callee ∈ closed_keep r).
Proof.
  apply (closure_ignores_blacklist 3 sample_options_blacklisting
           sample_options recursive_graph [sample_function]).
  - repeat constructor.
  - reflexivity.
Defined.

(** With [f] kept and [g] blacklisted on a graph where [f] and [g] call
    each other and [g] calls [h], the closure holds [g] and its callee
    [h] all the same. *)
Example closure_with_blacklisted_recursion :
  closure_of_run 3 sample_options_blacklisting recursive_graph
    [sample_function]
  = Ret {["f"; "g"; "h"]}.
Proof. vm_compute. reflexivity. Qed.

(** The second scenario of the design: [f] calls [g], the keep-set is [f]
    and [g] is blacklisted; the closure is still [f] and [g]. *)
Example closure_with_blacklisted_callee :
  closure_of_run 2 sample_options_blacklisting sample_graph [sample_function]
  = Ret {["f"; "g"]}.
Proof. vm_compute. reflexivity. Qed.

(** ** The command line *)

Lemma getopt_long_option_consumes long rest skipped c optarg rest' skipped' :
  getopt_long_option opts long rest skipped = GetoptOpt c optarg rest' skipped' →
  (length rest' ≤ length rest)%nat.
Proof.
  unfold getopt_long_option. destruct (split_at_eq long) as [name value].
  destruct (find_long opts name) as [o|]; [| intros [= _ _ <- _]; lia].
  destruct (opt_has_arg o), value as [v|];
    try (intros [= _ _ <- _]; lia).
  destruct rest as [|v rest0]; intros [= _ _ <- _]; simpl; lia.
Qed.

Lemma getopt_short_option_consumes c cluster rest skipped c' optarg rest' skipped' :
  getopt_short_option optstring c cluster rest skipped
    = GetoptOpt c' optarg rest' skipped' →
  c' ≠ question_mark → (length rest' ≤ length rest)%nat.
Proof.
  unfold getopt_short_option, optstring.
  destruct (Ascii.eqb c ":") eqn:Hcolon; [intros [= <- _ _ _]; done |].
  cbn [optstring_find].
  destruct (Ascii.eqb c "k") eqn:Hk.
  { change (Ascii.eqb ":" ":") with true. cbv iota.
    destruct cluster, rest; intros [= <- _ <- _] _; simpl; lia. }
  rewrite ?Hcolon.
  destruct (Ascii.eqb c "o") eqn:Ho.
  { change (Ascii.eqb ":" ":") with true. cbv iota.
    destruct cluster, rest; intros [= <- _ <- _] _; simpl; lia. }
  rewrite ?Hcolon.
  destruct (Ascii.eqb c "?") eqn:Hq.
  { apply Ascii.eqb_eq in Hq as ->. by intros [= <- _ _ _]. }
  by intros [= <- _ _ _].
Qed.

Lemma getopt_long_consumes args skipped c optarg rest skipped' :
  getopt_long optstring opts args skipped = GetoptOpt c optarg rest skipped' →
  c ≠ question_mark → (length rest < length args)%nat.
Proof.
  revert skipped. induction args as [|arg args IH]; intros skipped Hget Hc;
    [done |].
  cbn [getopt_long] in Hget.
  assert (Hskip : getopt_long optstring opts args (skipped ++ [arg])
                  = GetoptOpt c optarg rest skipped' →
                  (length rest < length (arg :: args))%nat).
  { intros H. apply IH in H; [simpl; lia | done]. }
  destruct arg as [|dash [|c0 tail]]; [by apply Hskip .. |].
  destruct (negb (Ascii.eqb dash "-")); [by apply Hskip |].
  destruct (Ascii.eqb c0 "-").
  - destruct tail; [done |].
    apply getopt_long_option_consumes in Hget. simpl. lia.
  - apply getopt_short_option_consumes in Hget; [simpl; lia | done].
Qed.

Lemma parse_loop_returns fuel :
  ∀ args skipped o,
    (length args < fuel)%nat → parse_loop fuel args skipped o ≠ OutOfFuel.
Proof.
  induction fuel as [|fuel IH]; intros args skipped o Hfuel; [lia |].
  cbn [parse_loop].
  destruct (getopt_long optstring opts args skipped)
    as [operands | c optarg rest skipped'] eqn:Hget; [done |].
  assert (Hnext : c ≠ question_mark → (length rest < fuel)%nat).
  { intros Hc. pose proof (getopt_long_consumes _ _ _ _ _ _ Hget Hc). lia. }
  destruct (Ascii.eqb c "b") eqn:Hb.
  { apply Ascii.eqb_eq in Hb as ->.
    destruct optarg; [apply IH, Hnext |]; done. }
  destruct (Ascii.eqb c "k") eqn:Hk.
  { apply Ascii.eqb_eq in Hk as ->.
    destruct optarg; [apply IH, Hnext |]; done. }
  destruct (Ascii.eqb c "o") eqn:Ho.
  { apply Ascii.eqb_eq in Ho as ->.
    destruct optarg; [apply IH, Hnext |]; done. }
  done.
Qed.

(** [parse_args] always comes back: the budget of its loop is never used
    up. *)
Lemma parse_args_returns (argv : list string) : parse_args argv ≠ OutOfFuel.
Proof.
  unfold parse_args.
  destruct (parse_loop _ _ _ _) as [ | | [[o operands]|]] eqn:Hloop.
  - exfalso. revert Hloop. apply parse_loop_returns.
    destruct argv; simpl; lia.
  - done.
  - cbn [mbind exec_bind]. by destruct operands as [|? [|? ?]].
  - done.
Qed.

(** C4, as the code has it: the short option [-b] is not in the option
    string handed to [getopt_long], so [-b symbol] ends the process with a
    failure status, where [--blacklist symbol] puts the symbol on the
    blacklist. *)
Theorem short_blacklist_option_rejected (prog symbol : string) :
  parse_args [prog; "-b"; symbol; "input.c"] = Ret (inl EXIT_FAILURE)
  ∧ parse_args [prog; "--blacklist"; symbol; "input.c"]
    = Ret (inr {| o_input := Some "input.c"; o_output := "/dev/stdout";
                  o_keep := set; o_blacklist := set_insert set symbol |}).
Proof. split; reflexivity. Qed.

(** * Further properties of the code *)

(** ** More on [emit] *)

(** X1: [emit] only appends.  For a cursor whose token count fits an
    unsigned int it returns normally, without reading past the token array,
    and the text it adds to the stream does not depend on what the stream
    already holds. *)
Theorem emit_appends (cursor : CXCursor) :
  tokens_fit cursor →
  ∃ text, ∀ stream, emit stream cursor = Ret (stream +:+ text).
Proof.
  intros Hfit. exists (rendering cursor). intros stream.
  by apply emit_render.
Qed.

Lemma emit_appends_witness :
  ∃ text, ∀ stream, emit stream sample_typedef = Ret (stream +:+ text).
Proof. apply (emit_appends sample_typedef). reflexivity. Defined.

(** X2: a function declaration that is no definition (a prototype) keeps
    all its tokens, whatever the last one is: the trailing token is dropped
    from definitions only. *)
Theorem emit_function_prototype (stream : FILE) (cursor : CXCursor) :
  cursor_kind cursor = CXCursor_FunctionDecl →
  cursor_is_definition cursor = false →
  tokens_fit cursor →
  emit stream cursor = Ret (stream +:+ lines (cursor_extent cursor)).
Proof.
  intros Hkind Hdef Hfit. rewrite emit_render by done. do 2 f_equal.
  rewrite render_lines by (rewrite Hkind; intros [? _]; discriminate).
  unfold emitted_range. rewrite Hkind, Hdef.
  destruct (last (cursor_extent cursor)) eqn:Hlast.
  - rewrite decide_False; [done |]. intros [? _]. discriminate.
  - by destruct (cursor_extent cursor) using rev_ind;
      [| rewrite last_snoc in Hlast].
Qed.

Lemma emit_function_prototype_witness :
  emit "" sample_prototype
  = Ret ("" +:+ lines (cursor_extent sample_prototype)).
Proof.
  apply (emit_function_prototype "" sample_prototype);
    [reflexivity | reflexivity | reflexivity].
Defined.

(** X3: the text of a function definition does not depend on what follows
    it in the file.  A definition whose extent ends in the closing brace
    (the last declaration of the file) and the same definition reported
    with one more token behind the brace print the same text. *)
Theorem emit_function_position_independent (stream : FILE)
    (at_end followed : CXCursor) (extra : string) :
  cursor_kind at_end = CXCursor_FunctionDecl →
  cursor_kind followed = CXCursor_FunctionDecl →
  cursor_is_definition at_end = true →
  cursor_is_definition followed = true →
  last (cursor_extent at_end) = Some "}" →
  cursor_extent followed = cursor_extent at_end ++ [extra] →
  extra ≠ "}" →
  tokens_fit followed →
  emit stream followed = emit stream at_end.
Proof.
  intros Hk1 Hk2 Hd1 Hd2 Hlast Hext Hextra Hfit.
  assert (Hfit1 : tokens_fit at_end).
  { unfold tokens_fit in *. rewrite Hext, length_app in Hfit. lia. }
  rewrite !emit_render by done. rewrite Hk1, Hk2. do 3 f_equal.
  unfold emitted_range. rewrite Hext, last_snoc, Hlast, Hk1, Hk2, Hd1, Hd2.
  rewrite decide_True by done. rewrite removelast_last.
  rewrite decide_False; [done |]. intros [_ H]. by apply H.
Qed.

Lemma emit_function_position_independent_witness :
  emit "" sample_function = emit "" sample_function_at_end.
Proof.
  apply (emit_function_position_independent "" sample_function_at_end
           sample_function "struct");
    try reflexivity.
  discriminate.
Defined.

(** ** The declaration walk as a whole *)

Lemma concat_text_app (xs ys : list string) :
  concat_text (xs ++ ys) = concat_text xs +:+ concat_text ys.
Proof.
  induction xs as [|x xs IH]; [done |].
  cbn [app concat_text]. by rewrite IH, append_assoc.
Qed.

(** The walk prints the selected declarations one after the other. *)
Lemma walk_prints_selected (tu : list CXCursor) (state : state_t) :
  Forall tokens_fit tu →
  clang_visitChildren tu visitor state
  = Ret {| keep := keep state; blacklist := blacklist state;
           out := out state
                  +:+ concat_text
                        (map rendering
                           (selected (keep state) (blacklist state) tu)) |}.
Proof.
  intros Hfit. revert state.
  induction Hfit as [|cursor rest Hc Hrest IH]; intros state.
  - cbn. rewrite append_empty_r. by destruct state.
  - cbn [clang_visitChildren]. rewrite visitor_by_select.
    unfold selected. rewrite filter_cons.
    destruct (select _ _ _ _) eqn:Hsel.
    + cbn [mbind exec_bind fst snd]. rewrite decide_False by done.
      apply IH.
    + rewrite emit_render by done. cbn [mbind exec_bind fst snd].
      rewrite decide_True by done. rewrite IH. cbn [keep blacklist out].
      cbn [map concat_text]. by rewrite append_assoc.
Qed.

(** X4: the walk over the translation unit hands every top-level
    declaration to the selector exactly once and in source order: what it
    adds to the output is the text of the selected declarations, one after
    the other, and it leaves the keep-set and the blacklist as they were. *)
Theorem walk_output (tu : list CXCursor) (state : state_t) :
  Forall tokens_fit tu →
  clang_visitChildren tu visitor state
  = Ret {| keep := keep state; blacklist := blacklist state;
           out := out state
                  +:+ concat_text
                        (map rendering
                           (selected (keep state) (blacklist state) tu)) |}.
Proof. apply walk_prints_selected. Qed.

Lemma walk_output_witness :
  clang_visitChildren sample_unit visitor
    {| keep := {["f"]}; blacklist := ∅; out := "" |}
  = Ret {| keep := {["f"]}; blacklist := ∅;
           out := ""
                  +:+ concat_text
                        (map rendering (selected {["f"]} ∅ sample_unit)) |}.
Proof.
  refine (walk_output sample_unit
            {| keep := {["f"]}; blacklist := ∅; out := "" |} _).
  repeat constructor.
Defined.

Lemma filter_sublist_impl {A : Type} (P Q : A → Prop)
    `{∀ x, Decision (P x)} `{∀ x, Decision (Q x)} (l : list A) :
  (∀ x, P x → Q x) → filter P l `sublist_of` filter Q l.
Proof.
  intros Himpl. induction l as [|x l IH]; [done |].
  rewrite !filter_cons. destruct (decide (P x)) as [HP | HP].
  - rewrite decide_True by by apply Himpl. by apply sublist_skip.
  - destruct (decide (Q x)); [by apply sublist_cons | done].
Qed.

Lemma select_monotone (K K' B B' : set_t) kind name :
  K ⊆ K' → B' ⊆ B →
  select K B kind name = Emit → select K' B' kind name = Emit.
Proof.
  intros HK HB. unfold select.
  destruct (decide (kind = CXCursor_FunctionDecl ∧ name ∉ K)) as [|Hk];
    [done |].
  destruct (decide (name ∈ B)) as [|Hb]; [done |]. intros _.
  rewrite decide_False.
  - rewrite decide_False; [done |]. intros Hin. by apply Hb, HB.
  - intros [Hf Hn]. apply Hk. split; [done |]. intros Hin. by apply Hn, HK.
Qed.

(** X5: the selector is monotone.  With a larger keep-set and a smaller
    blacklist the walk prints every declaration it printed before, in the
    same order, and possibly more: keeping more never removes a declaration
    from the output, blacklisting more never adds one. *)
Theorem walk_monotone (tu : list CXCursor) (K K' B B' : set_t)
    (stream : FILE) :
  Forall tokens_fit tu → K ⊆ K' → B' ⊆ B →
  ∃ fewer more,
    fewer `sublist_of` more
    ∧ clang_visitChildren tu visitor
        {| keep := K; blacklist := B; out := stream |}
      = Ret {| keep := K; blacklist := B;
               out := stream +:+ concat_text (map rendering fewer) |}
    ∧ clang_visitChildren tu visitor
        {| keep := K'; blacklist := B'; out := stream |}
      = Ret {| keep := K'; blacklist := B';
               out := stream +:+ concat_text (map rendering more) |}.
Proof.
  intros Hfit HK HB.
  exists (selected K B tu), (selected K' B' tu). split; [| split].
  - unfold selected. apply filter_sublist_impl.
    intros cursor. by apply select_monotone.
  - by rewrite walk_prints_selected.
  - by rewrite walk_prints_selected.
Qed.

Lemma walk_monotone_witness :
  ∃ fewer more,
    fewer `sublist_of` more
    ∧ clang_visitChildren sample_unit visitor
        {| keep := {["f"]}; blacklist := {["counter"]}; out := "" |}
      = Ret {| keep := {["f"]}; blacklist := {["counter"]};
               out := "" +:+ concat_text (map rendering fewer) |}
    ∧ clang_visitChildren sample_unit visitor
        {| keep := {["f"; "g"]}; blacklist := ∅; out := "" |}
      = Ret {| keep := {["f"; "g"]}; blacklist := ∅;
               out := "" +:+ concat_text (map rendering more) |}.
Proof.
  apply (walk_monotone sample_unit {["f"]} {["f"; "g"]} {["counter"]} ∅ "").
  - repeat constructor.
  - intros x ->%elem_of_singleton. apply elem_of_union. left.
    by apply elem_of_singleton.
  - intros x Hx. by apply elem_of_empty in Hx.
Defined.

(** ** More on [merge_callees] *)

(** X6: [merge_callees] returns 0 or -1, never removes a symbol from the
    keep-set, and on failure leaves the keep-set exactly as it was: the
    accumulated callees are merged only after every traversal succeeded. *)
Theorem merge_callees_outcome fuel (graph : cfg_t) (keeps keeps' : set_t)
    (rc : Z) (err : FILE) :
  merge_callees fuel keeps graph = Ret (rc, keeps', err) →
  keeps ⊆ keeps' ∧ (rc = 0 ∨ (rc = -1 ∧ keeps' = keeps)).
Proof.
  unfold merge_callees.
  destruct (merge_loop _ _ _ _) as [ | | r] eqn:Hl; try done.
  cbn [mbind exec_bind].
  destruct (negb (fst r =? 0)); intros [= <- <- _].
  - split; [done | by right].
  - split; [| by left]. unfold set_union. intros x Hx.
    apply elem_of_union. by left.
Qed.

Lemma merge_callees_outcome_witness :
  ({["f"]} : set_t) ⊆ {["f"; "g"]}
  ∧ (0 = 0 ∨ (0 = -1 ∧ ({["f"; "g"]} : set_t) = {["f"]})).
Proof.
  apply (merge_callees_outcome 2 sample_graph {["f"]} {["f"; "g"]} 0
           ("Warning: no definition for called function f" +:+ newline)).
  vm_compute. reflexivity.
Defined.

(** X7: with an empty keep-set [merge_callees] succeeds at once, for every
    call graph (cyclic or failing ones included) and every recursion
    budget: the graph is not consulted, nothing is kept and no warning is
    printed. *)
Theorem merge_callees_empty fuel (graph : cfg_t) :
  merge_callees fuel ∅ graph = Ret (0, ∅, "").
Proof.
  unfold merge_callees, set_iter. rewrite elements_empty.
  cbn. unfold set_union, set. by rewrite union_empty_l_L.
Qed.

(** The keep-set a successful [merge_callees] leaves is closed under
    calls. *)
Lemma merge_callees_closed fuel (graph : cfg_t) (keeps keeps' : set_t)
    (err : FILE) :
  merge_callees fuel keeps graph = Ret (0, keeps', err) →
  closed_under_calls graph keeps'.
Proof.
  intros Hrun caller callee Hin Hc.
  pose proof (merge_callees_members _ _ _ _ _ Hrun) as Hmem.
  apply Hmem. right. apply Hmem in Hin as [Hin | (k & Hk & Ht)].
  - exists caller. split; [done | by apply tc_once].
  - exists k. split; [done |]. eapply tc_r; [exact Ht | exact Hc].
Qed.

(** X8: the closure is idempotent.  Run again on the keep-set it left,
    with a recursion depth of at least the number of symbols of that
    keep-set, a successful [merge_callees] succeeds again and changes
    nothing. *)
Theorem merge_callees_idempotent fuel fuel' (graph : cfg_t)
    (keeps keeps' : set_t) (err : FILE) :
  merge_callees fuel keeps graph = Ret (0, keeps', err) →
  (size keeps' ≤ fuel')%nat →
  ∃ err', merge_callees fuel' keeps' graph = Ret (0, keeps', err').
Proof.
  intros Hrun Hfuel.
  pose proof (merge_callees_closed _ _ _ _ _ Hrun) as Hclosed.
  pose proof (merge_callees_enumerated _ _ _ _ _ Hrun) as Hok.
  destruct (merge_callees_computes_closure graph keeps' Hclosed fuel' keeps')
    as (again & err' & Hrun2 & Hmem); [done | done | done |].
  exists err'. rewrite Hrun2. do 3 f_equal.
  apply set_eq. intros x. rewrite (Hmem x). split; [| tauto].
  intros [Hx | (k & Hk & Ht)]; [done |].
  by eapply closed_contains_reachable.
Qed.

Lemma merge_callees_idempotent_witness :
  ∃ err', merge_callees 3 {["f"; "g"; "h"]} recursive_graph
          = Ret (0, {["f"; "g"; "h"]}, err').
Proof.
  apply (merge_callees_idempotent 3 3 recursive_graph {["f"]}
           {["f"; "g"; "h"]} "").
  - vm_compute. reflexivity.
  - vm_compute. lia.
Defined.

(** X9: the closure is monotone in the keep-set: keeping more to begin
    with keeps at least as much in the end. *)
Theorem merge_callees_monotone fuel fuel' (graph : cfg_t)
    (small large small' large' : set_t) (err err' : FILE) :
  small ⊆ large →
  merge_callees fuel small graph = Ret (0, small', err) →
  merge_callees fuel' large graph = Ret (0, large', err') →
  small' ⊆ large'.
Proof.
  intros Hsub Hs Hl x Hx.
  apply (merge_callees_members _ _ _ _ _ Hl).
  apply (merge_callees_members _ _ _ _ _ Hs) in Hx as [Hx | (k & Hk & Ht)].
  - left. by apply Hsub.
  - right. exists k. split; [by apply Hsub | done].
Qed.

Lemma merge_callees_monotone_witness :
  ({["h"]} : set_t) ⊆ {["f"; "g"; "h"]}.
Proof.
  apply (merge_callees_monotone 1 3 recursive_graph {["h"]} {["f"; "h"]}
           {["h"]} {["f"; "g"; "h"]} "" "").
  - intros x ->%elem_of_singleton. apply elem_of_union. right.
    by apply elem_of_singleton.
  - vm_compute. reflexivity.
  - vm_compute. reflexivity.
Defined.

Lemma tc_last_step {A : Type} (R : relation A) (a x : A) :
  tc R a x → ∃ y, rtc R a y ∧ R y x.
Proof.
  induction 1 as [a x HR | a b x HR Ht (y & Hy & Hlast)].
  - exists a. split; [apply rtc_refl | done].
  - exists y. split; [by eapply rtc_l | done].
Qed.

(** X10: nothing is kept without a reason.  Every symbol that a successful
    [merge_callees] adds to the keep-set is a callee of some symbol of the
    resulting keep-set. *)
Theorem merge_callees_added_called fuel (graph : cfg_t) (keeps keeps' : set_t)
    (err : FILE) (x : string) :
  merge_callees fuel keeps graph = Ret (0, keeps', err) →
  x ∈ keeps' → x ∉ keeps →
  ∃ caller, caller ∈ keeps' ∧ calls graph caller x.
Proof.
  intros Hrun Hin Hnew.
  pose proof (merge_callees_members _ _ _ _ _ Hrun) as Hmem.
  apply Hmem in Hin as [Hin | (k & Hk & Ht)]; [done |].
  apply tc_last_step in Ht as (caller & Hreach & Hcall).
  exists caller. split; [| done]. apply Hmem.
  apply rtc_tc in Hreach as [<- | Ht]; [by left |].
  right. by exists k.
Qed.

Lemma merge_callees_added_called_witness :
  ∃ caller,
    caller ∈ ({["f"; "g"; "h"]} : set_t) ∧ calls recursive_graph caller "h".
Proof.
  apply (merge_callees_added_called 3 recursive_graph {["f"]}
           {["f"; "g"; "h"]} "" "h").
  - vm_compute. reflexivity.
  - apply elem_of_union. right. by apply elem_of_singleton.
  - intros H%elem_of_singleton. discriminate.
Defined.

Lemma visit_entries_quiet descend caller entries :
  (∀ callee seen st r, descend callee seen st = Ret r →
     stderr (snd (snd r)) = stderr (st : closure_state)) →
  None ∉ entries →
  ∀ seen st r,
    visit_entries descend caller callee_visitor entries seen st = Ret r →
    stderr (snd (snd r)) = stderr st.
Proof.
  intros Hdesc.
  induction entries as [|entry rest IH]; intros Hnone seen st r Hrun.
  - by injection Hrun as <-.
  - assert (Hrest : None ∉ rest).
    { intros Hin. apply Hnone. by apply list_elem_of_further. }
    destruct entry as [callee|].
    2:{ destruct Hnone. apply list_elem_of_here. }
    cbn [visit_entries callee_visitor] in Hrun.
    destruct (decide (callee ∈ seen)).
    { by rewrite (IH Hrest _ _ _ Hrun). }
    destruct (descend callee _ _) as [ | | r1] eqn:Hd; try discriminate.
    cbn [mbind exec_bind] in Hrun. apply Hdesc in Hd. cbn [stderr] in Hd.
    destruct (fst r1 =? 0).
    + rewrite (IH Hrest _ _ _ Hrun). exact Hd.
    + by injection Hrun as <-.
Qed.

Lemma visit_symbol_quiet (graph : cfg_t) fuel :
  no_undefined graph →
  ∀ caller seen st r,
    visit_symbol fuel graph callee_visitor caller seen st = Ret r →
    stderr (snd (snd r)) = stderr st.
Proof.
  intros Hdef.
  induction fuel as [|fuel IH]; intros caller seen st r Hrun; [done |].
  cbn [visit_symbol] in Hrun.
  destruct (graph caller) as [entries|] eqn:Hg.
  - eapply visit_entries_quiet; [exact IH | by eapply Hdef | exact Hrun].
  - by injection Hrun as <-.
Qed.

Lemma cfg_visit_callees_quiet (graph : cfg_t) fuel :
  no_undefined graph →
  ∀ caller st r,
    cfg_visit_callees fuel graph caller callee_visitor st = Ret r →
    stderr (snd r) = stderr st.
Proof.
  intros Hdef caller st r. unfold cfg_visit_callees.
  destruct (visit_symbol _ _ _ _ _ _) as [ | | r1] eqn:Hv; try done.
  cbn [mbind exec_bind]. intros [= <-]. cbn [snd].
  by eapply visit_symbol_quiet.
Qed.

(** X11: when every call target of the graph is defined (no caller has the
    UNDEFINED marker among its callees), [merge_callees] prints no warning,
    whether it succeeds or fails. *)
Theorem merge_callees_quiet fuel (graph : cfg_t) (keeps keeps' : set_t)
    (rc : Z) (err : FILE) :
  no_undefined graph →
  merge_callees fuel keeps graph = Ret (rc, keeps', err) →
  err = "".
Proof.
  intros Hdef. unfold merge_callees.
  assert (Hloop : ∀ callers st r,
             merge_loop fuel graph callers st = Ret r →
             stderr (snd r) = stderr st).
  { induction callers as [|caller rest IH]; intros st r Hrun.
    - by injection Hrun as <-.
    - cbn [merge_loop] in Hrun.
      destruct (cfg_visit_callees fuel graph caller callee_visitor st)
        as [ | | r1] eqn:Hv; try discriminate.
      cbn [mbind exec_bind] in Hrun.
      apply (cfg_visit_callees_quiet graph fuel Hdef) in Hv.
      destruct (negb (fst r1 =? 0)).
      + by injection Hrun as <-.
      + by rewrite (IH _ _ Hrun). }
  destruct (merge_loop _ _ _ _) as [ | | r] eqn:Hl; try discriminate.
  apply Hloop in Hl. cbn [mbind exec_bind stderr] in *.
  destruct (negb (fst r =? 0)); by intros [= _ _ <-].
Qed.

Lemma recursive_graph_defined : no_undefined recursive_graph.
Proof.
  intros caller entries Hg Hin. unfold recursive_graph in Hg.
  destruct (decide (caller = "f")); [| destruct (decide (caller = "g"))];
    injection Hg as <-.
  - apply elem_of_cons in Hin as [[=] | Hin]. by apply elem_of_nil in Hin.
  - apply elem_of_cons in Hin as [[=] | Hin].
    apply elem_of_cons in Hin as [[=] | Hin]. by apply elem_of_nil in Hin.
  - by apply elem_of_nil in Hin.
Qed.

Lemma merge_callees_quiet_witness : ("" : FILE) = "".
Proof.
  apply (merge_callees_quiet 3 recursive_graph {["f"]} {["f"; "g"; "h"]} 0 ""
           recursive_graph_defined).
  vm_compute. reflexivity.
Defined.

(** ** More on [parse_args] *)

Lemma find_long_elem (longopts : list struct_option) name o :
  find_long longopts name = Some o → o ∈ longopts.
Proof.
  unfold find_long.
  destruct (filter (λ o, opt_name o = name) longopts) as [|o1 l1] eqn:Hexact.
  - destruct (filter (λ o, String.prefix name (opt_name o) = true) longopts)
      as [|o2 [|? ?]] eqn:Hprefix; try done.
    intros [= ->].
    assert (Hin : o ∈ filter (λ o, String.prefix name (opt_name o) = true)
                        longopts)
      by (rewrite Hprefix; apply list_elem_of_here).
    by apply list_elem_of_filter in Hin as [_ Hin].
  - intros [= ->].
    assert (Hin : o ∈ filter (λ o, opt_name o = name) longopts)
      by (rewrite Hexact; apply list_elem_of_here).
    by apply list_elem_of_filter in Hin as [_ Hin].
Qed.

Lemma getopt_long_option_optarg long rest skipped c rest' skipped' :
  getopt_long_option opts long rest skipped = GetoptOpt c None rest' skipped' →
  c = question_mark.
Proof.
  unfold getopt_long_option. destruct (split_at_eq long) as [name value].
  destruct (find_long opts name) as [o|] eqn:Hfind; [| by intros [= <-]].
  apply find_long_elem in Hfind. unfold opts in Hfind.
  repeat (apply elem_of_cons in Hfind as [-> | Hfind]);
    [.. | by apply elem_of_nil in Hfind]; cbn;
    destruct value, rest; by intros [= <-].
Qed.

Lemma getopt_short_option_optarg c cluster rest skipped c' rest' skipped' :
  getopt_short_option optstring c cluster rest skipped
    = GetoptOpt c' None rest' skipped' →
  c' = question_mark.
Proof.
  unfold getopt_short_option, optstring.
  destruct (Ascii.eqb c ":") eqn:Hcolon; [by intros [= <-] |].
  cbn [optstring_find].
  destruct (Ascii.eqb c "k") eqn:Hk.
  { change (Ascii.eqb ":" ":") with true. cbv iota.
    destruct cluster, rest; by intros [= <-]. }
  rewrite ?Hcolon.
  destruct (Ascii.eqb c "o") eqn:Ho.
  { change (Ascii.eqb ":" ":") with true. cbv iota.
    destruct cluster, rest; by intros [= <-]. }
  rewrite ?Hcolon.
  destruct (Ascii.eqb c "?") eqn:Hq.
  { apply Ascii.eqb_eq in Hq as ->. by intros [= <-]. }
  by intros [= <-].
Qed.

Lemma getopt_long_optarg args skipped c rest skipped' :
  getopt_long optstring opts args skipped = GetoptOpt c None rest skipped' →
  c = question_mark.
Proof.
  revert skipped. induction args as [|arg args IH]; intros skipped Hget;
    [done |].
  cbn [getopt_long] in Hget.
  destruct arg as [|dash [|c0 tail]]; [by eapply IH .. |].
  destruct (negb (Ascii.eqb dash "-")); [by eapply IH |].
  destruct (Ascii.eqb c0 "-").
  - destruct tail; [done |]. by eapply getopt_long_option_optarg.
  - by eapply getopt_short_option_optarg.
Qed.

Lemma parse_loop_defined fuel :
  ∀ args skipped o, parse_loop fuel args skipped o ≠ Undefined.
Proof.
  induction fuel as [|fuel IH]; intros args skipped o; [done |].
  cbn [parse_loop].
  destruct (getopt_long optstring opts args skipped)
    as [operands | c [v|] rest skipped'] eqn:Hget; [done | |].
  - destruct (Ascii.eqb c "b"); [apply IH |].
    destruct (Ascii.eqb c "k"); [apply IH |].
    destruct (Ascii.eqb c "o"); [apply IH | done].
  - apply getopt_long_optarg in Hget as ->. done.
Qed.

(** X12: [parse_args] comes back for every command line, with the options
    or with an exit status: its loop ends, and [optarg] is never null where
    it is handed to [set_insert] or stored as the output path. *)
Theorem parse_args_total (argv : list string) :
  ∃ r, parse_args argv = Ret r.
Proof.
  unfold parse_args.
  destruct (parse_loop _ _ _ _) as [ | | [[o operands]|]] eqn:Hloop.
  - exfalso. revert Hloop. apply parse_loop_returns. destruct argv; simpl; lia.
  - exfalso. revert Hloop. apply parse_loop_defined.
  - cbn [mbind exec_bind]. destruct operands as [|? [|? ?]]; by eexists.
  - by eexists.
Qed.

Lemma parse_loop_operand fuel arg args skipped o :
  is_operand arg = true →
  parse_loop fuel (arg :: args) skipped o
  = parse_loop fuel args (skipped ++ [arg]) o.
Proof.
  intros Hop. destruct fuel as [|fuel]; [done |]. cbn [parse_loop].
  assert (Hget : getopt_long optstring opts (arg :: args) skipped
                 = getopt_long optstring opts args (skipped ++ [arg])).
  { cbn [getopt_long]. destruct arg as [|dash [|c tail]]; try done.
    cbn [is_operand] in Hop. by rewrite Hop. }
  by rewrite Hget.
Qed.

Lemma parse_loop_option fuel item args skipped o :
  is_option item = true →
  parse_loop (S fuel) (encode_item item ++ args) skipped o
  = parse_loop fuel args skipped (apply_item o item).
Proof. by destruct item as [[|] s | s | [|] s | a]. Qed.

(** The loop of [parse_args] takes the items one by one. *)
Lemma parse_loop_items (items : list cli_item) :
  Forall well_formed_item items →
  ∀ fuel rest skipped o,
    parse_loop (options_count items + fuel) (encode_items items ++ rest)
      skipped o
    = parse_loop fuel rest (skipped ++ operands_of items)
        (fold_left apply_item items o).
Proof.
  induction 1 as [|item items Hwf _ IH]; intros fuel rest skipped o.
  - cbn. by rewrite app_nil_r.
  - unfold encode_items, operands_of, options_count in *.
    cbn [flat_map fold_left]. rewrite <- !app_assoc, filter_cons.
    destruct item as [long s | s | long s | arg].
    + rewrite decide_True by done. cbn [length Nat.add].
      rewrite parse_loop_option by done. by rewrite IH.
    + rewrite decide_True by done. cbn [length Nat.add].
      rewrite parse_loop_option by done. by rewrite IH.
    + rewrite decide_True by done. cbn [length Nat.add].
      rewrite parse_loop_option by done. by rewrite IH.
    + rewrite decide_False by done.
      cbn [encode_item app]. rewrite parse_loop_operand by exact Hwf.
      rewrite IH. by rewrite <- app_assoc.
Qed.

Lemma options_count_le (items : list cli_item) :
  (options_count items ≤ length (encode_items items))%nat.
Proof.
  unfold options_count, encode_items.
  induction items as [|item items IH]; [done |].
  rewrite filter_cons. cbn [flat_map]. rewrite length_app.
  destruct item as [[|] ? | ? | [|] ? | ?]; simpl; lia.
Qed.

(** The loop started by [parse_args] on well-formed items followed by
    [rest] goes on at [rest] with a budget that is not used up. *)
Lemma parse_args_loop_items prog (items : list cli_item) (rest : list string) :
  Forall well_formed_item items →
  ∃ fuel,
    (length rest < fuel)%nat
    ∧ parse_loop (S (length (prog :: encode_items items ++ rest)))
        (tail (prog :: encode_items items ++ rest)) [] default_options
      = parse_loop fuel rest (operands_of items)
          (fold_left apply_item items default_options).
Proof.
  intros Hwf. pose proof (options_count_le items) as Hle.
  exists (S (length (prog :: encode_items items ++ rest))
          - options_count items)%nat.
  cbn [length tail]. rewrite length_app. split; [lia |].
  pose proof (parse_loop_items items Hwf
                (S (S (length (encode_items items) + length rest))
                 - options_count items)%nat rest [] default_options) as Hrun.
  cbn [app] in Hrun. rewrite <- Hrun. f_equal. lia.
Qed.

Lemma parse_args_items prog (items : list cli_item) :
  Forall well_formed_item items →
  parse_args (prog :: encode_items items)
  = Ret (finish_parse (fold_left apply_item items default_options)
           (operands_of items)).
Proof.
  intros Hwf.
  destruct (parse_args_loop_items prog items [] Hwf) as (fuel & Hfuel & Hloop).
  rewrite app_nil_r in Hloop. unfold parse_args.
  change {| o_input := None; o_output := "/dev/stdout";
            o_keep := set; o_blacklist := set |} with default_options.
  rewrite Hloop. destruct fuel as [|fuel]; [simpl in Hfuel; lia |].
  cbn [parse_loop getopt_long mbind exec_bind]. unfold finish_parse.
  by destruct (operands_of items) as [|? [|? ?]].
Qed.

Lemma fold_apply_input (items : list cli_item) (o : options_t) :
  o_input (fold_left apply_item items o) = o_input o.
Proof.
  revert o. induction items as [|item items IH]; intros o; [done |].
  cbn [fold_left]. rewrite IH. by destruct item.
Qed.

Lemma fold_apply_output (items : list cli_item) (o : options_t) :
  o_output (fold_left apply_item items o)
  = default (o_output o) (last (outputs_of items)).
Proof.
  revert o. induction items as [|item items IH]; intros o; [done |].
  cbn [fold_left]. rewrite IH. unfold outputs_of. cbn [flat_map].
  destruct item; try done.
  cbn [apply_item o_output app]. rewrite last_cons.
  by destruct (last _).
Qed.

Lemma fold_apply_keep (items : list cli_item) (o : options_t) :
  o_keep (fold_left apply_item items o)
  = list_to_set (keeps_of items) ∪ o_keep o.
Proof.
  revert o. induction items as [|item items IH]; intros o.
  - cbn. by rewrite union_empty_l_L.
  - cbn [fold_left]. rewrite IH. unfold keeps_of. cbn [flat_map].
    destruct item; try done.
    cbn [apply_item o_keep app list_to_set]. unfold set_insert.
    apply set_eq. intros x. rewrite !elem_of_union. tauto.
Qed.

Lemma fold_apply_blacklist (items : list cli_item) (o : options_t) :
  o_blacklist (fold_left apply_item items o)
  = list_to_set (blacklists_of items) ∪ o_blacklist o.
Proof.
  revert o. induction items as [|item items IH]; intros o.
  - cbn. by rewrite union_empty_l_L.
  - cbn [fold_left]. rewrite IH. unfold blacklists_of. cbn [flat_map].
    destruct item; try done.
    cbn [apply_item o_blacklist app list_to_set]. unfold set_insert.
    apply set_eq. intros x. rewrite !elem_of_union. tauto.
Qed.

Lemma options_are_well_formed (options : list cli_item) :
  Forall (λ item, is_option item = true) options →
  Forall well_formed_item options.
Proof.
  intros Hopt. eapply Forall_impl; [exact Hopt |].
  by intros [| | |].
Qed.

Lemma options_have_no_operands (options : list cli_item) :
  Forall (λ item, is_option item = true) options →
  operands_of options = [].
Proof.
  unfold operands_of. induction 1 as [|item options Hitem _ IH]; [done |].
  cbn [flat_map]. rewrite IH. by destruct item.
Qed.

(** X13: a command line made of [--keep]/[-k], [--blacklist] and
    [--output]/[-o] options with their arguments, in any order, followed
    by the input file parses to exactly what it says: the keep-set holds
    the kept symbols, the blacklist the blacklisted ones, the output path
    is the last one given (the standard output by default) and the input
    is the file. *)
Theorem parse_args_round_trip prog (options : list cli_item)
    (file : string) :
  Forall (λ item, is_option item = true) options →
  is_operand file = true →
  parse_args (prog :: encode_items options ++ [file])
  = Ret (inr {| o_input := Some file;
                o_output := default "/dev/stdout" (last (outputs_of options));
                o_keep := list_to_set (keeps_of options);
                o_blacklist := list_to_set (blacklists_of options) |}).
Proof.
  intros Hopt Hfile.
  assert (Henc : encode_items options ++ [file]
                 = encode_items (options ++ [Operand file])).
  { unfold encode_items. rewrite flat_map_app. by cbn. }
  rewrite Henc, parse_args_items.
  2:{ apply Forall_app. split; [by apply options_are_well_formed |].
      by repeat constructor. }
  unfold operands_of. rewrite flat_map_app. fold (operands_of options).
  rewrite (options_have_no_operands options Hopt). cbn [flat_map app].
  unfold finish_parse.
  rewrite fold_apply_output, fold_apply_keep, fold_apply_blacklist.
  unfold outputs_of, keeps_of, blacklists_of. rewrite !flat_map_app.
  cbn [flat_map]. rewrite !app_nil_r.
  cbn [default_options o_output o_keep o_blacklist]. unfold set.
  by rewrite !union_empty_r_L.
Qed.

Lemma parse_args_round_trip_witness :
  parse_args ("pruner" :: encode_items sample_options_first ++ ["input.c"])
  = Ret (inr {| o_input := Some "input.c";
                o_output := default "/dev/stdout"
                              (last (outputs_of sample_options_first));
                o_keep := list_to_set (keeps_of sample_options_first);
                o_blacklist :=
                  list_to_set (blacklists_of sample_options_first) |}).
Proof.
  apply (parse_args_round_trip "pruner" sample_options_first "input.c").
  - repeat constructor.
  - reflexivity.
Defined.

(** X14: the number of operands decides the input.  Without an operand
    [parse_args] returns options whose input is unset; with two or more
    operands it ends the process with a failure status. *)
Theorem parse_args_operand_count prog (items : list cli_item) :
  Forall well_formed_item items →
  (operands_of items = [] →
   ∃ o, parse_args (prog :: encode_items items) = Ret (inr o)
        ∧ o_input o = None)
  ∧ ((2 ≤ length (operands_of items))%nat →
     parse_args (prog :: encode_items items) = Ret (inl EXIT_FAILURE)).
Proof.
  intros Hwf. rewrite parse_args_items by done. split.
  - intros ->. eexists. split; [done |]. by rewrite fold_apply_input.
  - intros Hlen. destruct (operands_of items) as [|? [|? ?]];
      [simpl in Hlen; lia .. | done].
Qed.

Lemma parse_args_operand_count_witness :
  parse_args ["pruner"; "a.c"; "-k"; "f"; "b.c"] = Ret (inl EXIT_FAILURE).
Proof.
  refine (proj2 (parse_args_operand_count "pruner"
                   [Operand "a.c"; KeepOpt false "f"; Operand "b.c"] _) _).
  - repeat constructor.
  - simpl. lia.
Defined.

Lemma getopt_short_option_unknown c cluster rest skipped :
  c ≠ "k"%char → c ≠ "o"%char →
  ∃ resume,
    getopt_short_option optstring c cluster rest skipped
    = GetoptOpt question_mark None resume skipped.
Proof.
  intros Hk Ho. unfold getopt_short_option, optstring.
  destruct (Ascii.eqb c ":") eqn:Hcolon; [by eexists |].
  cbn [optstring_find].
  apply Ascii.eqb_neq in Hk, Ho. rewrite Hk, ?Hcolon, Ho, ?Hcolon.
  destruct (Ascii.eqb c "?") eqn:Hq; [| by eexists].
  apply Ascii.eqb_eq in Hq as ->. by eexists.
Qed.

(** X15: no short option but [-k] and [-o] is accepted.  An argument that
    starts with a dash followed by any other character (and is no long
    option), coming after well-formed options and operands, ends the
    process with a failure status, whatever follows it. *)
Theorem parse_args_unknown_short_option prog (items : list cli_item)
    (c : ascii) (cluster : string) (rest : list string) :
  Forall well_formed_item items →
  c ≠ "k"%char → c ≠ "o"%char → c ≠ "-"%char →
  parse_args (prog :: encode_items items ++ String "-" (String c cluster) :: rest)
  = Ret (inl EXIT_FAILURE).
Proof.
  intros Hwf Hk Ho Hdash.
  destruct (parse_args_loop_items prog items
              (String "-" (String c cluster) :: rest) Hwf)
    as (fuel & Hfuel & Hloop).
  unfold parse_args.
  change {| o_input := None; o_output := "/dev/stdout";
            o_keep := set; o_blacklist := set |} with default_options.
  rewrite Hloop. destruct fuel as [|fuel]; [simpl in Hfuel; lia |].
  cbn [parse_loop getopt_long]. change (Ascii.eqb "-" "-") with true.
  cbn [negb]. apply Ascii.eqb_neq in Hdash. rewrite Hdash.
  destruct (getopt_short_option_unknown c cluster rest (operands_of items)
              Hk Ho) as [resume ->].
  reflexivity.
Qed.

Lemma parse_args_unknown_short_option_witness :
  parse_args ["pruner"; "-k"; "f"; "-x"; "input.c"] = Ret (inl EXIT_FAILURE).
Proof.
  apply (parse_args_unknown_short_option "pruner" [KeepOpt false "f"]
           "x" "" ["input.c"]).
  - repeat constructor.
  - discriminate.
  - discriminate.
  - discriminate.
Defined.

(** X16: an option that is left without its argument at the end of the
    command line ends the process with a failure status. *)
Theorem parse_args_missing_argument prog (items : list cli_item)
    (option : string) :
  Forall well_formed_item items →
  option ∈ ["-k"; "-o"; "--keep"; "--output"; "--blacklist"] →
  parse_args (prog :: encode_items items ++ [option])
  = Ret (inl EXIT_FAILURE).
Proof.
  intros Hwf Hopt.
  destruct (parse_args_loop_items prog items [option] Hwf)
    as (fuel & Hfuel & Hloop).
  unfold parse_args.
  change {| o_input := None; o_output := "/dev/stdout";
            o_keep := set; o_blacklist := set |} with default_options.
  rewrite Hloop. destruct fuel as [|fuel]; [simpl in Hfuel; lia |].
  repeat (apply elem_of_cons in Hopt as [-> | Hopt]; [reflexivity |]).
  by apply elem_of_nil in Hopt.
Qed.

Lemma parse_args_missing_argument_witness :
  parse_args ["pruner"; "input.c"; "--blacklist"] = Ret (inl EXIT_FAILURE).
Proof.
  apply (parse_args_missing_argument "pruner" [Operand "input.c"]
           "--blacklist").
  - repeat constructor.
  - do 4 apply list_elem_of_further. apply list_elem_of_here.
Defined.

(** ** [main] *)

Lemma parse_args_exit_status (argv : list string) (status : Z) :
  parse_args argv = Ret (inl status) → status = EXIT_FAILURE.
Proof.
  unfold parse_args.
  destruct (parse_loop _ _ _ _) as [ | | [[o operands]|]]; try done.
  - cbn [mbind exec_bind]. destruct operands as [|? [|? ?]]; try done.
    by intros [= <-].
  - by intros [= <-].
Qed.

Lemma main_from_cfg_failure fuel (o : options_t) (graph : cfg_t)
    (tu : list CXCursor) (r : run_t) :
  main_from_cfg fuel o graph tu = Ret r →
  exit_status r ≠ 0 →
  exit_status r = EXIT_FAILURE ∧ output_file r = "".
Proof.
  unfold main_from_cfg.
  destruct (merge_callees fuel (o_keep o) graph)
    as [ | | [[rc keeps] err]]; try done.
  cbn [mbind exec_bind]. destruct (negb (rc =? 0)).
  - by intros [= <-].
  - destruct (clang_visitChildren _ _ _); try done.
    cbn [mbind exec_bind]. by intros [= <-].
Qed.

(** X17: a run that fails writes no token.  If [main] exits with a status
    other than zero, the status is [EXIT_FAILURE] and the output file was
    either never opened or is left empty. *)
Theorem main_failure_writes_nothing fuel (w : world) (argv : list string)
    (p : process_t) :
  main fuel w argv = Ret p →
  p_status p ≠ 0 →
  p_status p = EXIT_FAILURE
  ∧ (p_output p = None ∨ p_output p = Some "").
Proof.
  unfold main.
  destruct (parse_args argv) as [ | | [status | options]] eqn:Hparse;
    try done; cbn [mbind exec_bind].
  { intros [= <-] _. cbn. split; [| by left].
    by eapply parse_args_exit_status. }
  destruct (o_input options) as [input|]; [| intros [= <-] _; cbn; tauto].
  destruct (negb (fopen_r w input)); [intros [= <-] _; cbn; tauto |].
  destruct (clang_parseTranslationUnit w input) as [tu|];
    [| intros [= <-] _; cbn; tauto].
  destruct (negb (fopen_w w (o_output options)));
    [intros [= <-] _; cbn; tauto |].
  destruct (cfg w tu) as [graph|]; [| intros [= <-] _; cbn; tauto].
  destruct (main_from_cfg fuel options graph tu) as [ | | r] eqn:Hrun;
    try done.
  cbn [mbind exec_bind]. intros [= <-] Hstatus. cbn in *.
  destruct (main_from_cfg_failure _ _ _ _ _ Hrun Hstatus) as [-> ->].
  tauto.
Qed.

Lemma main_failure_writes_nothing_witness :
  EXIT_FAILURE = EXIT_FAILURE
  ∧ ((None : option FILE) = None ∨ (None : option FILE) = Some "").
Proof.
  apply (main_failure_writes_nothing 2 sample_world
           ["pruner"; "-k"; "f"; "missing.c"]
           {| p_status := EXIT_FAILURE; p_output := None |}).
  - vm_compute. reflexivity.
  - discriminate.
Defined.

(** X18: what a successful run prints.  If [main] exits with status zero,
    then the command line parsed to options with an input file, the file
    was read and parsed, the output was opened and the call graph built,
    [merge_callees] succeeded, and the output file holds the text of
    exactly those top-level declarations, in source order, that pass the
    selector for the blacklist of the options and for the keep-set of the
    options extended by everything its members reach by calls. *)
Theorem main_success fuel (w : world) (argv : list string) (p : process_t) :
  world_fits w →
  main fuel w argv = Ret p →
  p_status p = 0 →
  ∃ options input tu graph closed err,
    parse_args argv = Ret (inr options)
    ∧ o_input options = Some input
    ∧ fopen_r w input = true
    ∧ clang_parseTranslationUnit w input = Some tu
    ∧ fopen_w w (o_output options) = true
    ∧ cfg w tu = Some graph
    ∧ merge_callees fuel (o_keep options) graph = Ret (0, closed, err)
    ∧ (∀ x, x ∈ closed ↔
            x ∈ o_keep options
            ∨ ∃ k, k ∈ o_keep options ∧ tc (calls graph) k x)
    ∧ p_output p
      = Some (concat_text
                (map rendering (selected closed (o_blacklist options) tu))).
Proof.
  intros Hfits. unfold main.
  destruct (parse_args argv) as [ | | [status | options]] eqn:Hparse;
    try done; cbn [mbind exec_bind].
  { intros [= <-] Hstatus. cbn in Hstatus. subst status.
    by apply parse_args_exit_status in Hparse. }
  destruct (o_input options) as [input|] eqn:Hinput; [| by intros [= <-]].
  destruct (fopen_r w input) eqn:Hread; cbn [negb]; [| by intros [= <-]].
  destruct (clang_parseTranslationUnit w input) as [tu|] eqn:Htu;
    [| by intros [= <-]].
  destruct (fopen_w w (o_output options)) eqn:Hwrite; cbn [negb];
    [| by intros [= <-]].
  destruct (cfg w tu) as [graph|] eqn:Hcfg; [| by intros [= <-]].
  unfold main_from_cfg.
  destruct (merge_callees fuel (o_keep options) graph)
    as [ | | [[rc closed] err]] eqn:Hmerge; try done.
  cbn [mbind exec_bind].
  destruct (Z.eqb_spec rc 0) as [-> | Hrc]; cbn [negb];
    [| by intros [= <-]].
  rewrite walk_prints_selected by by eapply Hfits.
  cbn [mbind exec_bind keep blacklist out]. intros [= <-] _.
  exists options, input, tu, graph, closed, err.
  repeat (split; [done |]).
  split; [by apply (merge_callees_members graph fuel _ _ err) |].
  reflexivity.
Qed.

Lemma recursive_world_fits : world_fits recursive_world.
Proof.
  intros input tu. cbn. destruct (decide (input = "input.c")); [| done].
  intros [= <-]. repeat constructor.
Qed.

Lemma main_success_witness :
  ∃ options input tu graph closed err,
    parse_args ["pruner"; "-k"; "f"; "input.c"] = Ret (inr options)
    ∧ o_input options = Some input
    ∧ fopen_r recursive_world input = true
    ∧ clang_parseTranslationUnit recursive_world input = Some tu
    ∧ fopen_w recursive_world (o_output options) = true
    ∧ cfg recursive_world tu = Some graph
    ∧ merge_callees 3 (o_keep options) graph = Ret (0, closed, err)
    ∧ (∀ x, x ∈ closed ↔
            x ∈ o_keep options
            ∨ ∃ k, k ∈ o_keep options ∧ tc (calls graph) k x)
    ∧ p_output
        {| p_status := 0;
           p_output := Some (concat_text (map rendering sample_unit)) |}
      = Some (concat_text
                (map rendering (selected closed (o_blacklist options) tu))).
Proof.
  apply (main_success 3 recursive_world ["pruner"; "-k"; "f"; "input.c"]
           {| p_status := 0;
              p_output := Some (concat_text (map rendering sample_unit)) |}
           recursive_world_fits).
  - vm_compute. reflexivity.
  - reflexivity.
Defined.

(** ** Requests for help and adapter errors *)

(** X19: asking for help is reported as a failure.  [--help], wherever it
    comes after well-formed options and operands, ends the process with
    the status [EXIT_FAILURE], whatever follows it. *)
Theorem parse_args_help_fails prog (items : list cli_item)
    (rest : list string) :
  Forall well_formed_item items →
  parse_args (prog :: encode_items items ++ "--help" :: rest)
  = Ret (inl EXIT_FAILURE).
Proof.
  intros Hwf.
  destruct (parse_args_loop_items prog items ("--help" :: rest) Hwf)
    as (fuel & Hfuel & Hloop).
  unfold parse_args.
  change {| o_input := None; o_output := "/dev/stdout";
            o_keep := set; o_blacklist := set |} with default_options.
  rewrite Hloop. destruct fuel as [|fuel]; [simpl in Hfuel; lia |].
  reflexivity.
Qed.

Lemma parse_args_help_fails_witness :
  parse_args ["pruner"; "-k"; "f"; "--help"; "input.c"]
  = Ret (inl EXIT_FAILURE).
Proof.
  apply (parse_args_help_fails "pruner" [KeepOpt false "f"] ["input.c"]).
  repeat constructor.
Defined.

(** X20: one symbol whose callees the adapter cannot enumerate spoils the
    closure.  If such a symbol is in the keep-set or is reached from it by
    calls, a [merge_callees] that returns returns -1 and leaves the
    keep-set as it was. *)
Theorem merge_callees_adapter_error fuel (graph : cfg_t)
    (keeps keeps' : set_t) (rc : Z) (err : FILE) (k x : string) :
  merge_callees fuel keeps graph = Ret (rc, keeps', err) →
  k ∈ keeps → k = x ∨ tc (calls graph) k x →
  graph x = None →
  rc = -1 ∧ keeps' = keeps.
Proof.
  intros Hrun Hk Hreach Hnone. unfold merge_callees in Hrun.
  destruct (merge_loop fuel graph (set_iter keeps) _)
    as [ | | [rc1 st1]] eqn:Hloop; try done.
  cbn [mbind exec_bind fst snd] in Hrun.
  destruct (Z.eqb_spec rc1 0) as [-> | Hrc]; cbn [negb] in Hrun.
  2:{ by injection Hrun as <- <- _. }
  exfalso.
  apply (merge_loop_enumerated graph fuel _ _ _ Hloop k x); [| | done].
  - by apply elem_of_elements.
  - destruct Hreach as [-> | Ht]; [by left | by right].
Qed.

Lemma merge_callees_adapter_error_witness :
  (-1 = -1) ∧ ({["f"]} : set_t) = {["f"]}.
Proof.
  apply (merge_callees_adapter_error 3 failing_recursive_graph
           {["f"]} {["f"]} (-1) "" "f" "h").
  - vm_compute. reflexivity.
  - by apply elem_of_singleton.
  - right. apply tc_once. exists [Some "f"; Some "h"]. split; [reflexivity |].
    apply list_elem_of_further, list_elem_of_here.
  - reflexivity.
Defined.
